(** * cppinterpreter: lexer, parser and executor of the toy [out]/[in] language

    A shallow embedding of [src/cppinterpreter.cpp].  A [std::string] is a
    [string]; positions ([size_t pos], [current_index]) are [nat]; the
    [unordered_map] of variables is a [gmap string string]; the three
    standard streams are lists of lines.  Every [while] loop of the source
    is a fixpoint on an explicit iteration budget that answers [None] when
    the budget is used up, so that termination is a theorem and not a
    feature of the encoding. *)

From Stdlib Require Import ZArith Ascii String DecimalString.
From Stdlib Require DecimalPos.
From stdpp Require Import base option list strings gmap.

Local Open Scope nat_scope.

(** ** Characters and strings the way the source uses them *)

(** The double quote character, [34]. *)
Definition dquote : ascii := Ascii false true false false false true false false.

(** The one-character string holding a double quote. *)
Definition dq : string := String dquote EmptyString.

(** [<cctype>] in the "C" locale.  Codes above 127 belong to no class. *)
Definition isspace (c : ascii) : bool :=
  let n := nat_of_ascii c in
  (n =? 32) || ((9 <=? n) && (n <=? 13)).

Definition isdigit (c : ascii) : bool :=
  let n := nat_of_ascii c in
  (48 <=? n) && (n <=? 57).

Definition isalpha (c : ascii) : bool :=
  let n := nat_of_ascii c in
  ((65 <=? n) && (n <=? 90)) || ((97 <=? n) && (n <=? 122)).

Definition isalnum (c : ascii) : bool := isalpha c || isdigit c.

(** [input[pos]]; the source only reads below [input.length()], and
    [std::string] answers the terminating zero at [length()]. *)
Definition char_at (input : string) (pos : nat) : ascii :=
  default zero (String.get pos input).

(** [input.substr(pos, n)]: at most [n] characters from [pos], clipped at
    the end of the string.  The source calls it with [pos <= length()]. *)
Definition substr (input : string) (pos n : nat) : string :=
  String.substring pos n input.

(** ** Tokens *)

Inductive TokenType : Set :=
  | OUT
  | IN
  | GREATER_THAN
  | LESS_THAN
  | STRING_LITERAL
  | VAR_NAME
  | STOP
  | END_STATEMENT
  | INT_KEYWORD
  | UNKNOWN.

#[global] Instance TokenType_eq_dec : EqDecision TokenType.
Proof. solve_decision. Defined.

Record Token : Set := mkToken { type : TokenType; value : string }.

#[global] Instance Token_eq_dec : EqDecision Token.
Proof. solve_decision. Defined.

(** What the source throws. *)
Inductive exn : Set :=
  | runtime_error (what : string)
  | invalid_argument (what : string)
  | out_of_range (what : string).

(** ** Lexer *)

(** The loop shape shared by [skip_whitespace] and by the two scans of
    [next_token]:
    [while (pos < input.length() && p(input[pos])) pos++;]
    [fuel] bounds the number of iterations. *)
Fixpoint scan_while (p : ascii -> bool) (fuel : nat) (input : string) (pos : nat)
  : option nat :=
  if (pos <? String.length input) && p (char_at input pos) then
    match fuel with
    | 0 => None
    | S fuel' => scan_while p fuel' input (S pos)
    end
  else Some pos.

Definition skip_whitespace (fuel : nat) (input : string) (pos : nat) : option nat :=
  scan_while isspace fuel input pos.

Definition not_dquote (c : ascii) : bool := negb (Ascii.eqb c dquote).

(** [Lexer::next_token]: the token and the position after it. *)
Definition next_token (fuel : nat) (input : string) (pos : nat)
  : option (Token * nat) :=
  pos ← skip_whitespace fuel input pos;
  if String.length input <=? pos then
    Some (mkToken END_STATEMENT "", pos)
  else if String.eqb (substr input pos 3) "out" then
    Some (mkToken OUT "out", pos + 3)
  else if String.eqb (substr input pos 2) ">>" then
    Some (mkToken GREATER_THAN ">>", pos + 2)
  else if String.eqb (substr input pos 2) "in" then
    Some (mkToken IN "in", pos + 2)
  else if String.eqb (substr input pos 2) "<<" then
    Some (mkToken LESS_THAN "<<", pos + 2)
  else if String.eqb (substr input pos 4) "stop" then
    Some (mkToken STOP "stop", pos + 4)
  else if String.eqb (substr input pos 3) "int" then
    Some (mkToken INT_KEYWORD "int", pos + 3)
  else if Ascii.eqb (char_at input pos) dquote then
    let start := S pos in
    pos' ← scan_while not_dquote fuel input start;
    Some (mkToken STRING_LITERAL (substr input start (pos' - start)), S pos')
  else if isalpha (char_at input pos) then
    let start := pos in
    pos' ← scan_while isalnum fuel input pos;
    Some (mkToken VAR_NAME (substr input start (pos' - start)), pos')
  else if Ascii.eqb (char_at input pos) ";" then
    Some (mkToken END_STATEMENT ";", S pos)
  else
    Some (mkToken UNKNOWN "", S pos).

(** The loop of [Lexer::tokenize] from position [pos] with [tokens]
    already pushed.  [inl e]: the exception thrown; [inr ts]: the vector
    returned. *)
Fixpoint tokenize_loop (fuel : nat) (input : string) (pos : nat) (tokens : list Token)
  : option (exn + list Token) :=
  if pos <? String.length input then
    match fuel with
    | 0 => None
    | S fuel' =>
        match next_token fuel' input pos with
        | None => None
        | Some (token, pos') =>
            if decide (type token = UNKNOWN) then
              Some (inl (runtime_error "Unknown token encountered"))
            else tokenize_loop fuel' input pos' (tokens ++ [token])
        end
    end
  else Some (inr tokens).

(** [Lexer(input).tokenize()].  One more iteration than the input has
    characters is always enough ([tokenize_loop_total]). *)
Definition tokenize (input : string) : option (exn + list Token) :=
  tokenize_loop (S (String.length input)) input 0 [].

(** ** Statements *)

(** The two subclasses of [Statement], with their data members. *)
Inductive Statement : Set :=
  | OutStatement (output_targets : list string)
  | InStatement (var_name : string).

#[global] Instance Statement_eq_dec : EqDecision Statement.
Proof. solve_decision. Defined.

(** ** Parser *)

(** The [while] loop of [Parser::parse_out_statement]. *)
Fixpoint parse_out_loop (fuel : nat) (tokens : list Token) (current_index : nat)
    (output_targets : list string) : option (list string * nat) :=
  match tokens !! current_index with
  | Some t =>
      if bool_decide (type t = GREATER_THAN) then
        match fuel with
        | 0 => None
        | S fuel' => parse_out_loop fuel' tokens (S current_index) output_targets
        end
      else if bool_decide (type t = STRING_LITERAL)
              || bool_decide (type t = VAR_NAME) then
        match fuel with
        | 0 => None
        | S fuel' =>
            parse_out_loop fuel' tokens (S current_index) (output_targets ++ [value t])
        end
      else Some (output_targets, current_index)
  | None => Some (output_targets, current_index)
  end.

(** [Parser::parse_out_statement], entered with [current_index] on [out]. *)
Definition parse_out_statement (fuel : nat) (tokens : list Token) (current_index : nat)
  : option (Statement * nat) :=
  '(output_targets, current_index) ← parse_out_loop fuel tokens (S current_index) [];
  match tokens !! current_index with
  | Some t =>
      if bool_decide (type t = STOP)
      then Some (OutStatement output_targets, S current_index)
      else Some (OutStatement output_targets, current_index)
  | None => Some (OutStatement output_targets, current_index)
  end.

(** [Parser::parse_in_statement], entered with [current_index] on [in]. *)
Definition parse_in_statement (tokens : list Token) (current_index : nat)
  : exn + Statement * nat :=
  let current_index := S current_index in
  match tokens !! current_index with
  | Some t =>
      if bool_decide (type t = LESS_THAN) then
        let current_index := S current_index in
        match tokens !! current_index with
        | Some t' =>
            if bool_decide (type t' = VAR_NAME)
            then inr (InStatement (value t'), S current_index)
            else inl (runtime_error "Invalid 'in' statement")
        | None => inl (runtime_error "Invalid 'in' statement")
        end
      else inl (runtime_error "Invalid 'in' statement")
  | None => inl (runtime_error "Invalid 'in' statement")
  end.

(** The loop of [Parser::parse]. *)
Fixpoint parse_loop (fuel : nat) (tokens : list Token) (current_index : nat)
    (statements : list Statement) : option (exn + list Statement) :=
  match tokens !! current_index with
  | Some t =>
      match fuel with
      | 0 => None
      | S fuel' =>
          if bool_decide (type t = OUT) then
            '(stmt, current_index) ← parse_out_statement fuel' tokens current_index;
            parse_loop fuel' tokens current_index (statements ++ [stmt])
          else if bool_decide (type t = IN) then
            match parse_in_statement tokens current_index with
            | inl e => Some (inl e)
            | inr (stmt, current_index) =>
                parse_loop fuel' tokens current_index (statements ++ [stmt])
            end
          else parse_loop fuel' tokens (S current_index) statements
      end
  | None => Some (inr statements)
  end.

(** [Parser(tokens).parse()]. *)
Definition parse (tokens : list Token) : option (exn + list Statement) :=
  parse_loop (S (length tokens)) tokens 0 [].

(** ** Executor *)

(** [std::cin], [std::cout] and [std::cerr].  [cin] holds the lines still
    to be read, without their newlines.  [cout] and [cerr] hold what was
    written, one element per [stream << s << std::endl], in order: the
    characters on the stream are those of [stream_text], each element
    followed by the newline of its [std::endl].  An element that holds a
    newline itself is more than one line of output. *)
Record Streams : Type := mkStreams {
  cin : list string;
  cout : list string;
  cerr : list string
}.

(** [stream << s << std::endl] *)
Definition put_cout (s : string) (io : Streams) : Streams :=
  mkStreams (cin io) (cout io ++ [s]) (cerr io).

Definition put_cerr (s : string) (io : Streams) : Streams :=
  mkStreams (cin io) (cout io) (cerr io ++ [s]).

(** [std::getline(std::cin, input_str)]: at end of input the string is
    left empty. *)
Definition getline (io : Streams) : string * Streams :=
  match cin io with
  | line :: rest => (line, mkStreams rest (cout io) (cerr io))
  | [] => (EmptyString, io)
  end.

(** [variables[key]] of [std::unordered_map]: the value, and the map, which
    gains a default-constructed entry when the key was absent. *)
Definition subscript (variables : gmap string string) (key : string)
  : string * gmap string string :=
  match variables !! key with
  | Some v => (v, variables)
  | None => (EmptyString, <[key := EmptyString]> variables)
  end.

(** The range of [int], 32 bits wide. *)
Definition INT_MIN : Z := (-2147483648)%Z.
Definition INT_MAX : Z := 2147483647%Z.

Fixpoint skip_spaces (s : string) : string :=
  match s with
  | String c s' => if isspace c then skip_spaces s' else s
  | EmptyString => EmptyString
  end.

Fixpoint read_digits (s : string) (acc : Z) : Z :=
  match s with
  | String c s' =>
      if isdigit c
      then read_digits s' (10 * acc + (Z.of_nat (nat_of_ascii c) - 48))%Z
      else acc
  | EmptyString => acc
  end.

(** The optional sign [strtol] accepts: whether it is a minus, and the
    text after it. *)
Definition strip_sign (s : string) : bool * string :=
  match s with
  | String "-" s' => (true, s')
  | String "+" s' => (false, s')
  | _ => (false, s)
  end.

(** [std::stoi(str)]: [strtol] in base 10 (leading white space, an
    optional sign, the longest run of digits; what follows is ignored),
    [invalid_argument] when no digit was read and [out_of_range] when the
    number does not fit.  The number is computed exactly: one that leaves
    the range of [long] leaves the range of [int] as well. *)
Definition stoi (str : string) : exn + Z :=
  let '(negative, s) := strip_sign (skip_spaces str) in
  if isdigit (char_at s 0) then
    let n := read_digits s 0 in
    let n := if negative : bool then (- n)%Z else n in
    if ((INT_MIN <=? n) && (n <=? INT_MAX))%Z then inr n
    else inl (out_of_range "stoi")
  else inl (invalid_argument "stoi").

(** [std::to_string(value)] for an [int]. *)
Definition to_string (value : Z) : string :=
  NilZero.string_of_int (Z.to_int value).

(** [OutStatement::execute] *)
Fixpoint OutStatement_execute (output_targets : list string)
    (variables : gmap string string) (io : Streams)
  : gmap string string * Streams :=
  match output_targets with
  | [] => (variables, io)
  | target :: output_targets =>
      if bool_decide (is_Some (variables !! target)) then
        let '(v, variables) := subscript variables target in
        OutStatement_execute output_targets variables (put_cout v io)
      else
        OutStatement_execute output_targets variables (put_cout target io)
  end.

Definition diagnostic : string := "Invalid input. Please enter an integer.".

(** [InStatement::execute]: only [std::invalid_argument] is caught. *)
Definition InStatement_execute (var_name : string)
    (variables : gmap string string) (io : Streams)
  : exn + gmap string string * Streams :=
  let '(input_str, io) := getline io in
  match stoi input_str with
  | inr value => inr (<[var_name := to_string value]> variables, io)
  | inl (invalid_argument _) =>
      inr (<[var_name := "0"]> variables, put_cerr diagnostic io)
  | inl e => inl e
  end.

(** The virtual call [stmt->execute(variables)]. *)
Definition execute (stmt : Statement) (variables : gmap string string) (io : Streams)
  : exn + gmap string string * Streams :=
  match stmt with
  | OutStatement output_targets => inr (OutStatement_execute output_targets variables io)
  | InStatement var_name => InStatement_execute var_name variables io
  end.

(** The [for] loop of [Interpreter::execute]; an exception leaves it.  The
    result of a run that throws is the exception alone; the streams as
    the throw leaves them are those of [streams_at_exit] below. *)
Fixpoint execute_all (statements : list Statement)
    (variables : gmap string string) (io : Streams)
  : exn + gmap string string * Streams :=
  match statements with
  | [] => inr (variables, io)
  | stmt :: statements =>
      match execute stmt variables io with
      | inl e => inl e
      | inr (variables, io) => execute_all statements variables io
      end
  end.

(** [Interpreter::execute]: a fresh map, dropped on return. *)
Definition Interpreter_execute (statements : list Statement) (io : Streams)
  : exn + Streams :=
  match execute_all statements ∅ io with
  | inl e => inl e
  | inr (_, io) => inr io
  end.

(** * The vocabulary of the statements proved below *)

(** The source text of the example of the specification. *)
Definition sample : string :=
  "out >> " +:+ dq +:+ "hi" +:+ dq +:+ "; in << a; out >> a;".

(** Its three statements. *)
Definition sample_program : list Statement :=
  [OutStatement ["hi"]; InStatement "a"; OutStatement ["a"]].

(** Its twelve tokens. *)
Definition sample_tokens : list Token :=
  [mkToken OUT "out"; mkToken GREATER_THAN ">>"; mkToken STRING_LITERAL "hi";
   mkToken END_STATEMENT ";"; mkToken IN "in"; mkToken LESS_THAN "<<";
   mkToken VAR_NAME "a"; mkToken END_STATEMENT ";"; mkToken OUT "out";
   mkToken GREATER_THAN ">>"; mkToken VAR_NAME "a"; mkToken END_STATEMENT ";"].

(** Every character of [s] passes [p]. *)
Fixpoint string_forall (p : ascii → bool) (s : string) : bool :=
  match s with
  | EmptyString => true
  | String c s' => p c && string_forall p s'
  end.

(** A scan with test [p] stops at the head of [t]. *)
Definition stops (p : ascii → bool) (t : string) : bool :=
  match t with
  | EmptyString => true
  | String c _ => negb (p c)
  end.

(** The shape of the lexeme the identifier rule reads. *)
Definition identifier_text (v : string) : bool :=
  match v with
  | EmptyString => false
  | String c v' => isalpha c && string_forall isalnum v'
  end.

(** [v] starts with a keyword the lexer recognises before it tries the
    identifier rule ([int] starts with [in]). *)
Definition begins_with_keyword (v : string) : bool :=
  String.prefix "out" v || String.prefix "in" v || String.prefix "stop" v.

(** The keyword rules that can fire, in the order [next_token] tries them. *)
Definition keyword_rules : list (TokenType * string) :=
  [(OUT, "out"); (IN, "in"); (STOP, "stop")].

(** The token at [i + 1] is [<<] and the token at [i + 2] is a name. *)
Definition followed_by_redirect_and_name (tokens : list Token) (i : nat) : bool :=
  match tokens !! S i, tokens !! S (S i) with
  | Some t1, Some t2 =>
      bool_decide (type t1 = LESS_THAN) && bool_decide (type t2 = VAR_NAME)
  | _, _ => false
  end.

(** What [parse_in_statement] throws. *)
Definition invalid_in : exn := runtime_error "Invalid 'in' statement".

(** The text of an integer: decimal digits, at least one, after an
    optional sign, and nothing else. *)
Definition is_integer_text (line : string) : bool :=
  let digits := (strip_sign line).2 in
  negb (String.eqb digits "") && string_forall isdigit digits.

(** [std::stoi] finds no number in [line]: after the white space and the
    sign it skips, the line does not go on with a digit. *)
Definition no_leading_number (line : string) : bool :=
  negb (isdigit (char_at (strip_sign (skip_spaces line)).2 0)).

(** The source text of a token: its value, between double quotes for a
    string literal (closed, also when the literal was cut off by the end
    of the input). *)
Definition lexeme (t : Token) : string :=
  match type t with
  | STRING_LITERAL => dq +:+ value t +:+ dq
  | _ => value t
  end.

(** The tokens a rule of [next_token] builds in front of some text: the
    fixed ones, a string literal without a quote inside, a name that does
    not start with a keyword. *)
Definition produced (t : Token) : bool :=
  match type t with
  | OUT => String.eqb (value t) "out"
  | IN => String.eqb (value t) "in"
  | GREATER_THAN => String.eqb (value t) ">>"
  | LESS_THAN => String.eqb (value t) "<<"
  | STOP => String.eqb (value t) "stop"
  | END_STATEMENT => String.eqb (value t) ";"
  | STRING_LITERAL => string_forall not_dquote (value t)
  | VAR_NAME => identifier_text (value t) && negb (begins_with_keyword (value t))
  | INT_KEYWORD | UNKNOWN => false
  end.

(** The token [next_token] returns at the end of the input. *)
Definition end_token : Token := mkToken END_STATEMENT "".

(** The lexemes with a space in front of each. *)
Fixpoint spaced (ts : list Token) : string :=
  match ts with
  | [] => EmptyString
  | t :: ts => " " +:+ lexeme t +:+ spaced ts
  end.

(** What [tokenize] returns: produced tokens, and possibly [end_token]
    last. *)
Fixpoint relexable (ts : list Token) : Prop :=
  match ts with
  | [] => True
  | t :: ts => (produced t = true ∧ relexable ts) ∨ (t = end_token ∧ ts = [])
  end.

(** [rest] is empty or starts with a space. *)
Definition space_or_end (rest : string) : bool :=
  match rest with
  | EmptyString => true
  | String c _ => Ascii.eqb c " "
  end.

(** ** The driver *)



(** ** More vocabulary *)

(** The token opens a statement at the top level of [parse]. *)
Definition starts_statement (t : Token) : bool :=
  bool_decide (type t = OUT) || bool_decide (type t = IN).

(** The token is consumed by the loop of [parse_out_statement]. *)
Definition out_operand (t : Token) : bool :=
  bool_decide (type t = GREATER_THAN) || bool_decide (type t = STRING_LITERAL)
  || bool_decide (type t = VAR_NAME).

(** The targets the loop of [parse_out_statement] collects from a run of
    operands: the values of those that are not [>>]. *)
Definition out_targets (run : list Token) : list string :=
  value <$> filter (λ t, type t ≠ GREATER_THAN) run.

(** [rest] without the [stop] it may start with. *)
Definition skip_stop (rest : list Token) : list Token :=
  match rest with
  | t :: rest' => if bool_decide (type t = STOP) then rest' else rest
  | [] => []
  end.

(** No operand of an [out] statement stands at the head of [rest]. *)
Definition ends_operands (rest : list Token) : bool :=
  match rest with
  | t :: _ => negb (out_operand t)
  | [] => true
  end.

(** A statement in front of the result of a parse. *)
Definition with_statement (stmt : Statement) (r : exn + list Statement)
  : exn + list Statement :=
  match r with
  | inl e => inl e
  | inr statements => inr (stmt :: statements)
  end.

(** The lines a statement sequence reads from standard input. *)
Fixpoint lines_read (statements : list Statement) : nat :=
  match statements with
  | [] => 0
  | InStatement _ :: statements => S (lines_read statements)
  | OutStatement _ :: statements => lines_read statements
  end.

(** The lines a statement sequence writes to standard output. *)
Fixpoint lines_written (statements : list Statement) : nat :=
  match statements with
  | [] => 0
  | InStatement _ :: statements => lines_written statements
  | OutStatement output_targets :: statements =>
      length output_targets + lines_written statements
  end.

(** The variables a statement sequence assigns. *)
Fixpoint assigned (statements : list Statement) : gset string :=
  match statements with
  | [] => ∅
  | InStatement var_name :: statements => {[var_name]} ∪ assigned statements
  | OutStatement _ :: statements => assigned statements
  end.

(** [v] is what [std::to_string] prints for some [int]. *)
Definition canonical (v : string) : Prop :=
  ∃ n : Z, (INT_MIN ≤ n ≤ INT_MAX)%Z ∧ v = to_string n.

(** No rule of [next_token] applies at the head of [s]: it starts with a
    character that is not white space, not a letter, not a double quote,
    not a semicolon, and it does not start with [>>] or [<<]. *)
Definition unrecognized (s : string) : bool :=
  match s with
  | EmptyString => false
  | String c _ =>
      negb (isspace c) && negb (isalpha c) && negb (Ascii.eqb c dquote)
      && negb (Ascii.eqb c ";")
      && negb (String.prefix ">>" s) && negb (String.prefix "<<" s)
  end.

(** ** Output as text *)

(** The character [std::endl] writes. *)
Definition newline : ascii := Ascii false true false true false false false false.

(** The characters on an output stream after the given writes. *)
Fixpoint stream_text (writes : list string) : string :=
  match writes with
  | [] => EmptyString
  | s :: writes => s +:+ String newline (stream_text writes)
  end.

(** The lines of a text: what stands between its newlines. *)
Fixpoint text_lines (text : string) : list string :=
  match text with
  | EmptyString => []
  | String c text =>
      if Ascii.eqb c newline then EmptyString :: text_lines text
      else
        match text_lines text with
        | [] => [String c EmptyString]
        | line :: lines => String c line :: lines
        end
  end.

(** [s] holds no newline. *)
Definition one_line (s : string) : bool :=
  string_forall (λ c, negb (Ascii.eqb c newline)) s.

(** The targets of the [OutStatement]s of a statement sequence. *)
Fixpoint targets_of (statements : list Statement) : list string :=
  match statements with
  | [] => []
  | InStatement _ :: statements => targets_of statements
  | OutStatement output_targets :: statements =>
      output_targets ++ targets_of statements
  end.

(** ** The streams when a run is cut short *)

(** The streams as the loop of [Interpreter::execute] leaves them, by its
    end or by an exception.  The streams are global objects: what a run
    has read and written before a throw stays read and written.  The
    only statement that throws is an [InStatement], after its
    [std::getline] and before it writes anything. *)
Fixpoint streams_at_exit (statements : list Statement)
    (variables : gmap string string) (io : Streams) : Streams :=
  match statements with
  | [] => io
  | stmt :: statements =>
      match execute stmt variables io with
      | inr (variables, io) => streams_at_exit statements variables io
      | inl _ =>
          match stmt with
          | InStatement _ => (getline io).2
          | OutStatement _ => io
          end
      end
  end.


(** * The code on small inputs *)

Example tokenize_sample :
  tokenize sample = Some (inr
    [mkToken OUT "out"; mkToken GREATER_THAN ">>"; mkToken STRING_LITERAL "hi";
     mkToken END_STATEMENT ";"; mkToken IN "in"; mkToken LESS_THAN "<<";
     mkToken VAR_NAME "a"; mkToken END_STATEMENT ";"; mkToken OUT "out";
     mkToken GREATER_THAN ">>"; mkToken VAR_NAME "a"; mkToken END_STATEMENT ";"]).
Proof. vm_compute. reflexivity. Qed.

Example parse_sample :
  (tokenize sample ≫= λ r, match r with inr ts => parse ts | inl e => None end)
  = Some (inr sample_program).
Proof. vm_compute. reflexivity. Qed.

Example run_sample_42 :
  Interpreter_execute sample_program (mkStreams ["42"] [] [])
  = inr (mkStreams [] ["hi"; "42"] []).
Proof. vm_compute. reflexivity. Qed.

Example run_sample_abc :
  Interpreter_execute sample_program (mkStreams ["abc"] [] [])
  = inr (mkStreams [] ["hi"; "0"] [diagnostic]).
Proof. vm_compute. reflexivity. Qed.

(** White space up to the end of the input gives one more token, the
    empty [END_STATEMENT] of the first [return] of [next_token]. *)
Example tokenize_trailing_space :
  tokenize "a " = Some (inr [mkToken VAR_NAME "a"; end_token])
  ∧ tokenize " " = Some (inr [end_token])
  ∧ tokenize "" = Some (inr []).
Proof. vm_compute. repeat split. Qed.

Example tokenize_unknown :
  tokenize "out 1" = Some (inl (runtime_error "Unknown token encountered")).
Proof. vm_compute. reflexivity. Qed.

Example stoi_examples :
  stoi "12abc" = inr 12%Z ∧ stoi "  -7" = inr (-7)%Z ∧ stoi "+" = inl (invalid_argument "stoi")
  ∧ stoi "99999999999" = inl (out_of_range "stoi") ∧ to_string (-7) = "-7" ∧ to_string 0 = "0".
Proof. vm_compute. repeat split. Qed.

(** * Facts about strings and positions *)

Section string_facts.
Implicit Types (s t input : string) (pos n : nat) (c : ascii).

Lemma append_nil t : "" +:+ t = t.
Proof. reflexivity. Qed.

Lemma append_cons c s t : String c s +:+ t = String c (s +:+ t).
Proof. reflexivity. Qed.

Lemma length_app s t :
  String.length (s +:+ t) = String.length s + String.length t.
Proof.
  induction s as [|c s IH]; [done|].
  rewrite append_cons. simpl. by rewrite IH.
Qed.

Lemma get_app_r s t pos :
  String.get (String.length s + pos) (s +:+ t) = String.get pos t.
Proof. induction s as [|c s IH]; [done|]. by rewrite append_cons. Qed.

Lemma substring_app_r s t pos n :
  String.substring (String.length s + pos) n (s +:+ t) = String.substring pos n t.
Proof. induction s as [|c s IH]; [done|]. by rewrite append_cons. Qed.

Lemma char_at_app_r s t pos :
  char_at (s +:+ t) (String.length s + pos) = char_at t pos.
Proof. unfold char_at. by rewrite get_app_r. Qed.

Lemma substr_app_r s t pos n :
  substr (s +:+ t) (String.length s + pos) n = substr t pos n.
Proof. apply substring_app_r. Qed.

Lemma app_assoc_s s t u : (s +:+ t) +:+ u = s +:+ (t +:+ u).
Proof.
  induction s as [|c s IH]; [done|]. rewrite !append_cons. by f_equal.
Qed.

Lemma app_empty_r s : s +:+ "" = s.
Proof.
  induction s as [|c s IH]; [done|]. rewrite append_cons. by f_equal.
Qed.

(** [substr] from [0] of a whole prefix. *)
Lemma substring_app_l s t :
  String.substring 0 (String.length s) (s +:+ t) = s.
Proof.
  induction s as [|c s IH].
  - by destruct t.
  - rewrite append_cons. simpl. by rewrite IH.
Qed.

Lemma substring_0_0 s : String.substring 0 0 s = "".
Proof. by destruct s. Qed.
End string_facts.

(** * The loops of the lexer end *)

Section lexer_fuel.
Implicit Types (p : ascii → bool) (input : string) (pos fuel : nat).

Lemma scan_while_eq p fuel input pos :
  scan_while p fuel input pos =
    if (pos <? String.length input) && p (char_at input pos) then
      match fuel with
      | 0 => None
      | S fuel' => scan_while p fuel' input (S pos)
      end
    else Some pos.
Proof. by destruct fuel. Qed.

(** A scan that has an answer keeps it under a larger budget. *)
Lemma scan_while_mono p fuel fuel' input pos r :
  scan_while p fuel input pos = Some r → fuel ≤ fuel' →
  scan_while p fuel' input pos = Some r.
Proof.
  revert fuel' pos. induction fuel as [|fuel IH]; intros fuel' pos;
    rewrite (scan_while_eq p _ input pos), (scan_while_eq p fuel' input pos);
    destruct (_ && _); try done.
  intros Hr Hle. destruct fuel' as [|fuel']; [lia|]. apply IH; [done | lia].
Qed.

(** [length - pos] iterations are enough, and a scan never moves back nor
    past the end of the input. *)
Lemma scan_while_total p fuel input pos :
  String.length input - pos ≤ fuel →
  ∃ r, scan_while p fuel input pos = Some r
       ∧ pos ≤ r ∧ (r ≤ String.length input ∨ r = pos).
Proof.
  revert pos. induction fuel as [|fuel IH]; intros pos Hfuel;
    rewrite scan_while_eq;
    destruct (Nat.ltb_spec pos (String.length input)) as [Hlt|Hge]; simpl;
    try (exists pos; split; [done | lia]).
  - lia.
  - destruct (p (char_at input pos)); [|exists pos; split; [done | lia]].
    destruct (IH (S pos)) as (r & Hr & Hle & Hend); [lia|].
    exists r. split; [done | lia].
Qed.

(** Where a scan stops: at the end of the input or on a character that
    fails the test; everything it passed satisfies the test. *)
Lemma scan_while_stop p fuel input pos r :
  scan_while p fuel input pos = Some r →
  (String.length input ≤ r ∨ p (char_at input r) = false)
  ∧ ∀ i, pos ≤ i < r → p (char_at input i) = true.
Proof.
  revert pos. induction fuel as [|fuel IH]; intros pos;
    rewrite scan_while_eq;
    destruct (Nat.ltb_spec pos (String.length input)) as [Hlt|Hge]; simpl.
  - destruct (p (char_at input pos)) eqn:Hp; [done|].
    intros [= <-]. split; [by right | lia].
  - intros [= <-]. split; [by left | lia].
  - destruct (p (char_at input pos)) eqn:Hp.
    + intros Hr. destruct (IH _ Hr) as [Hstop Hall]. split; [done|].
      intros i Hi. destruct (decide (i = pos)) as [->|]; [done|].
      apply Hall. lia.
    + intros [= <-]. split; [by right | lia].
  - intros [= <-]. split; [by left | lia].
Qed.

(** The scans read the input relative to the position: a prefix in
    front of the input moves every position by its length. *)
Lemma scan_while_shift p fuel pre input pos :
  scan_while p fuel (pre +:+ input) (String.length pre + pos)
  = (λ r, String.length pre + r) <$> scan_while p fuel input pos.
Proof.
  revert pos. induction fuel as [|fuel IH]; intros pos;
    rewrite (scan_while_eq p _ (pre +:+ input)), (scan_while_eq p _ input pos);
    rewrite length_app, char_at_app_r;
    replace (String.length pre + pos <? String.length pre + String.length input)
      with (pos <? String.length input)
      by (destruct (Nat.ltb_spec pos (String.length input));
          symmetry; [apply Nat.ltb_lt | apply Nat.ltb_ge]; lia);
    destruct (_ && _); try done.
  rewrite <- IH. f_equal. lia.
Qed.
End lexer_fuel.

Section next_token_facts.
Implicit Types (input : string) (pos fuel : nat) (t : Token).

Lemma isalpha_isalnum c : isalpha c = true → isalnum c = true.
Proof. unfold isalnum. by intros ->. Qed.

Lemma next_token_mono fuel fuel' input pos t pos' :
  next_token fuel input pos = Some (t, pos') → fuel ≤ fuel' →
  next_token fuel' input pos = Some (t, pos').
Proof.
  unfold next_token, skip_whitespace. intros Hnext Hle.
  destruct (scan_while isspace fuel input pos) as [r|] eqn:Hws; [|done].
  rewrite (scan_while_mono _ _ _ _ _ _ Hws Hle). simpl in *.
  repeat (case_match; [done|]).
  case_match.
  { destruct (scan_while not_dquote fuel input (S r)) as [r'|] eqn:Hq; [|done].
    by rewrite (scan_while_mono _ _ _ _ _ _ Hq Hle). }
  case_match; [|done].
  destruct (scan_while isalnum fuel input r) as [r'|] eqn:Hid; [|done].
  by rewrite (scan_while_mono _ _ _ _ _ _ Hid Hle).
Qed.

(** With [length - pos] iterations for its scans [next_token] returns,
    and it consumes at least one character when there is one. *)
Lemma next_token_total fuel input pos :
  String.length input - pos ≤ fuel →
  ∃ t pos', next_token fuel input pos = Some (t, pos')
            ∧ (pos < String.length input → pos < pos').
Proof.
  intros Hfuel. unfold next_token, skip_whitespace.
  destruct (scan_while_total isspace fuel input pos Hfuel) as (r & -> & Hr & _).
  simpl.
  destruct (Nat.leb_spec (String.length input) r) as [Hend|Hin];
    [eexists _, _; split; [done | lia]|].
  repeat (case_match; [eexists _, _; split; [done | lia]|]).
  case_match.
  { destruct (scan_while_total not_dquote fuel input (S r)) as (r' & -> & Hr' & _);
      [lia|].
    eexists _, _. split; [done | lia]. }
  case_match; [|case_match; eexists _, _; (split; [done | lia])].
  destruct (scan_while_total isalnum fuel input r) as (r' & Hscan & Hr' & _);
    [lia|].
  rewrite Hscan. eexists _, _. split; [done|]. intros _.
  destruct (scan_while_stop _ _ _ _ _ Hscan) as [[Hstop|Hstop] _].
  - lia.
  - destruct (decide (r' = r)) as [->|]; [|lia].
    rewrite isalpha_isalnum in Hstop; done.
Qed.

Lemma next_token_shift fuel pre input pos :
  next_token fuel (pre +:+ input) (String.length pre + pos)
  = (λ '(t, r), (t, String.length pre + r)) <$> next_token fuel input pos.
Proof.
  unfold next_token, skip_whitespace. rewrite scan_while_shift.
  destruct (scan_while isspace fuel input pos) as [r|]; [simpl|done].
  rewrite length_app, !substr_app_r, char_at_app_r.
  replace (String.length pre + String.length input <=? String.length pre + r)
    with (String.length input <=? r)
    by (destruct (Nat.leb_spec (String.length input) r);
        symmetry; [apply Nat.leb_le | apply Nat.leb_gt]; lia).
  repeat (case_match; [simpl; f_equal; f_equal; lia|]).
  case_match.
  { replace (S (String.length pre + r)) with (String.length pre + S r) by lia.
    rewrite scan_while_shift.
    destruct (scan_while not_dquote fuel input (S r)) as [r'|]; [simpl|done].
    rewrite substr_app_r.
    replace (String.length pre + r' - (String.length pre + S r)) with (r' - S r)
      by lia.
    do 2 f_equal. lia. }
  case_match.
  { rewrite scan_while_shift.
    destruct (scan_while isalnum fuel input r) as [r'|]; [simpl|done].
    replace (String.length pre + r' - (String.length pre + r)) with (r' - r)
      by lia.
    by rewrite substr_app_r. }
  case_match; simpl; do 2 f_equal; lia.
Qed.
End next_token_facts.

Section tokenize_facts.
Implicit Types (input : string) (pos fuel : nat) (tokens : list Token).

Lemma tokenize_loop_eq fuel input pos tokens :
  tokenize_loop fuel input pos tokens =
    if pos <? String.length input then
      match fuel with
      | 0 => None
      | S fuel' =>
          match next_token fuel' input pos with
          | None => None
          | Some (token, pos') =>
              if decide (type token = UNKNOWN) then
                Some (inl (runtime_error "Unknown token encountered"))
              else tokenize_loop fuel' input pos' (tokens ++ [token])
          end
      end
    else Some (inr tokens).
Proof. by destruct fuel. Qed.

Lemma tokenize_loop_mono fuel fuel' input pos tokens r :
  tokenize_loop fuel input pos tokens = Some r → fuel ≤ fuel' →
  tokenize_loop fuel' input pos tokens = Some r.
Proof.
  revert fuel' pos tokens.
  induction fuel as [|fuel IH]; intros fuel' pos tokens;
    rewrite (tokenize_loop_eq _ input pos), (tokenize_loop_eq fuel' input pos);
    destruct (pos <? String.length input); try done.
  intros Hr Hle. destruct fuel' as [|fuel']; [lia|].
  destruct (next_token fuel input pos) as [[t pos']|] eqn:Hnext; [|done].
  rewrite (next_token_mono _ fuel' _ _ _ _ Hnext) by lia.
  destruct (decide _); [done|]. apply IH; [done | lia].
Qed.

(** The loop of [tokenize] ends: each turn moves [pos] forward. *)
Lemma tokenize_loop_total fuel input pos tokens :
  S (String.length input - pos) ≤ fuel →
  ∃ r, tokenize_loop fuel input pos tokens = Some r.
Proof.
  revert pos tokens. induction fuel as [|fuel IH]; intros pos tokens Hfuel;
    [lia|].
  rewrite tokenize_loop_eq.
  destruct (Nat.ltb_spec pos (String.length input)) as [Hlt|Hge]; [|by eexists].
  destruct (next_token_total fuel input pos) as (t & pos' & -> & Hpos); [lia|].
  destruct (decide _); [by eexists|].
  apply IH. specialize (Hpos Hlt). lia.
Qed.

Lemma tokenize_loop_shift fuel pre input pos tokens :
  tokenize_loop fuel (pre +:+ input) (String.length pre + pos) tokens
  = tokenize_loop fuel input pos tokens.
Proof.
  revert pos tokens. induction fuel as [|fuel IH]; intros pos tokens;
    rewrite (tokenize_loop_eq _ (pre +:+ input)), (tokenize_loop_eq _ input pos);
    rewrite length_app;
    replace (String.length pre + pos <? String.length pre + String.length input)
      with (pos <? String.length input)
      by (destruct (Nat.ltb_spec pos (String.length input));
          symmetry; [apply Nat.ltb_lt | apply Nat.ltb_ge]; lia);
    destruct (pos <? String.length input); try done.
  rewrite next_token_shift.
  destruct (next_token fuel input pos) as [[t pos']|]; [simpl|done].
  destruct (decide _); [done|]. apply IH.
Qed.

Lemma tokenize_total input : ∃ r, tokenize input = Some r.
Proof. apply tokenize_loop_total. lia. Qed.

(** Any budget that lets the loop answer gives the answer of [tokenize]. *)
Lemma tokenize_loop_tokenize fuel input r :
  tokenize_loop fuel input 0 [] = Some r → tokenize input = Some r.
Proof.
  intros Hr. destruct (tokenize_total input) as [r' Hr'].
  destruct (Nat.le_ge_cases fuel (S (String.length input))) as [Hle|Hle].
  - apply (tokenize_loop_mono _ _ _ _ _ _ Hr Hle).
  - unfold tokenize in Hr'. rewrite (tokenize_loop_mono _ _ _ _ _ _ Hr' Hle) in Hr.
    by simplify_eq.
Qed.
End tokenize_facts.

(** * The keyword [int] *)

Section int_keyword.
Lemma substring_int_in pos s :
  String.substring pos 3 s = "int" → String.substring pos 2 s = "in".
Proof.
  revert s. induction pos as [|pos IH]; intros s.
  - destruct s as [|a [|b [|c s]]]; simpl; rewrite ?substring_0_0; congruence.
  - destruct s as [|a s]; simpl; [congruence | apply IH].
Qed.

(** The rule for [in] is tried before the rule for [int], so the latter
    never fires. *)
Lemma next_token_not_int fuel input pos t pos' :
  next_token fuel input pos = Some (t, pos') → type t ≠ INT_KEYWORD.
Proof.
  unfold next_token, skip_whitespace.
  destruct (scan_while isspace fuel input pos) as [r|]; [simpl|done].
  repeat (case_match; [by intros [= <- _]|]).
  case_match.
  { exfalso.
    match goal with
    | Hin : (substr _ _ 2 =? "in")%string = false,
      Hint : (substr _ _ 3 =? "int")%string = true |- _ =>
        apply String.eqb_neq in Hin; apply String.eqb_eq in Hint;
        apply Hin, substring_int_in, Hint
    end. }
  case_match.
  { destruct (scan_while not_dquote fuel input (S r)); [simpl|done].
    by intros [= <- _]. }
  case_match.
  { destruct (scan_while isalnum fuel input r); [simpl|done].
    by intros [= <- _]. }
  case_match; by intros [= <- _].
Qed.

Lemma tokenize_loop_not_int fuel input pos tokens ts :
  tokenize_loop fuel input pos tokens = Some (inr ts) →
  Forall (λ t, type t ≠ INT_KEYWORD) tokens →
  Forall (λ t, type t ≠ INT_KEYWORD) ts.
Proof.
  revert pos tokens. induction fuel as [|fuel IH]; intros pos tokens;
    rewrite tokenize_loop_eq; destruct (pos <? String.length input);
    try done; try (by intros [= <-]).
  destruct (next_token fuel input pos) as [[t pos']|] eqn:Hnext; [|done].
  destruct (decide _); [done|].
  intros Hloop Htokens. apply (IH _ _ Hloop).
  apply Forall_app. split; [done|].
  apply Forall_singleton. by eapply next_token_not_int.
Qed.
End int_keyword.

(** C10.  No token returned by [tokenize] has the kind [INT_KEYWORD]: at a
    position where the input reads [int] the two-character rule for [in],
    which is tried first, has already matched, so the three-character rule
    for [int] is never reached. *)
Theorem C10_int_keyword_never_produced input ts :
  tokenize input = Some (inr ts) →
  Forall (λ t, type t ≠ INT_KEYWORD) ts.
Proof.
  intros Htok. by apply (tokenize_loop_not_int _ _ _ _ _ Htok).
Qed.

Lemma C10_int_keyword_never_produced_witness :
  tokenize "int x" = Some (inr [mkToken IN "in"; mkToken VAR_NAME "t"; mkToken VAR_NAME "x"])
  ∧ Forall (λ t, type t ≠ INT_KEYWORD)
      [mkToken IN "in"; mkToken VAR_NAME "t"; mkToken VAR_NAME "x"].
Proof.
  split; [vm_compute; reflexivity|].
  apply (C10_int_keyword_never_produced "int x"). vm_compute. reflexivity.
Defined.

(** * One token at the head of a text *)

Section char_facts.
Implicit Types c : ascii.

Lemma isalpha_not_space c : isalpha c = true → isspace c = false.
Proof. destruct c as [[] [] [] [] [] [] [] []]; vm_compute; congruence. Qed.

Lemma isalpha_not_dquote c : isalpha c = true → Ascii.eqb c dquote = false.
Proof. destruct c as [[] [] [] [] [] [] [] []]; vm_compute; congruence. Qed.

Lemma isalpha_not_gt c : isalpha c = true → Ascii.eqb c ">" = false.
Proof. destruct c as [[] [] [] [] [] [] [] []]; vm_compute; congruence. Qed.

Lemma isalpha_not_lt c : isalpha c = true → Ascii.eqb c "<" = false.
Proof. destruct c as [[] [] [] [] [] [] [] []]; vm_compute; congruence. Qed.
End char_facts.

Section head_token.
Implicit Types (p : ascii → bool) (v t body : string) (fuel : nat).

Lemma scan_while_cons p fuel c s :
  scan_while p (S fuel) (String c s) 0
  = if p c then S <$> scan_while p fuel s 0 else Some 0.
Proof.
  rewrite scan_while_eq. simpl. unfold char_at at 1. simpl.
  destruct (p c); [|done].
  apply (scan_while_shift p fuel (String c EmptyString) s 0).
Qed.

Lemma scan_while_halt p fuel t :
  stops p t = true → scan_while p fuel t 0 = Some 0.
Proof.
  intros Hstop. rewrite scan_while_eq. destruct t as [|c t]; [done|].
  simpl in *. unfold char_at. simpl. by destruct (p c).
Qed.

(** A scan started on a run [v] of characters passing [p], followed by a
    text at which it stops, ends just after [v]. *)
Lemma scan_while_run p fuel v t :
  string_forall p v = true → stops p t = true → String.length v ≤ fuel →
  scan_while p fuel (v +:+ t) 0 = Some (String.length v).
Proof.
  revert fuel. induction v as [|c v IH]; intros fuel Hv Ht Hfuel.
  - by apply scan_while_halt.
  - simpl in Hv, Hfuel. apply andb_true_iff in Hv as [Hc Hv].
    destruct fuel as [|fuel]; [lia|].
    rewrite append_cons, scan_while_cons, Hc, IH by (done || lia). done.
Qed.

(** A keyword made of letters that is read off [v +:+ t], where [t]
    does not go on with a letter or digit, lies inside [v]. *)
Lemma substring_prefix_run k v t :
  string_forall isalnum k = true → stops isalnum t = true →
  String.substring 0 (String.length k) (v +:+ t) = k →
  String.prefix k v = true.
Proof.
  revert v. induction k as [|a k IH]; intros v Hk Ht Heq.
  - by destruct v.
  - simpl in Hk. apply andb_true_iff in Hk as [Ha Hk].
    destruct v as [|b v].
    + rewrite append_nil in Heq. destruct t as [|c t]; simpl in *; [done|].
      injection Heq as -> _. by rewrite Ha in Ht.
    + rewrite append_cons in Heq. simpl in Heq. injection Heq as -> Heq.
      simpl. destruct (ascii_dec a a); [|done]. by apply IH.
Qed.

Lemma next_token_identifier fuel v t :
  identifier_text v = true → begins_with_keyword v = false →
  stops isalnum t = true → String.length v ≤ fuel →
  next_token fuel (v +:+ t) 0 = Some (mkToken VAR_NAME v, String.length v).
Proof.
  intros Hid Hkw Ht Hfuel.
  destruct v as [|c v]; [done|]. simpl in Hid.
  apply andb_true_iff in Hid as [Hc Hv].
  apply orb_false_iff in Hkw as [Hkw Hstop].
  apply orb_false_iff in Hkw as [Hout Hin].
  assert (Hrun : string_forall isalnum (String c v) = true).
  { simpl. by rewrite (isalpha_isalnum _ Hc). }
  assert (Hno : ∀ k, string_forall isalnum k = true →
                     String.prefix k (String c v) = false →
                     (substr (String c v +:+ t) 0 (String.length k) =? k)%string = false).
  { intros k Hk Hpre. apply String.eqb_neq. intros Heq.
    by rewrite (substring_prefix_run k _ t Hk Ht Heq) in Hpre. }
  pose proof (Hno "out" eq_refl Hout) as Hno_out.
  pose proof (Hno "in" eq_refl Hin) as Hno_in.
  pose proof (Hno "stop" eq_refl Hstop) as Hno_stop.
  assert ((substr (String c v +:+ t) 0 3 =? "int")%string = false) as Hno_int.
  { apply String.eqb_neq. intros Heq. apply substring_int_in in Heq.
    by apply String.eqb_neq in Hno_in. }
  simpl String.length in Hno_out, Hno_in, Hno_stop.
  unfold next_token, skip_whitespace.
  rewrite scan_while_halt
    by (rewrite append_cons; simpl; by rewrite (isalpha_not_space _ Hc)).
  change (Some ?x ≫= ?f) with (f x). cbv beta.
  rewrite Hno_out, Hno_in, Hno_stop, Hno_int.
  rewrite scan_while_run by done.
  change (Some ?x ≫= ?f) with (f x). cbv beta.
  rewrite Nat.sub_0_r.
  replace (substr (String c v +:+ t) 0 (String.length (String c v)))
    with (String c v) by (symmetry; apply substring_app_l).
  rewrite append_cons. unfold substr, char_at. simpl.
  rewrite (isalpha_not_gt _ Hc), (isalpha_not_lt _ Hc), (isalpha_not_dquote _ Hc), Hc.
  done.
Qed.
End head_token.

Section head_token_fixed.
Implicit Types (p : ascii → bool) (t body : string) (fuel : nat).

Lemma scan_while_tail p fuel c s pos :
  scan_while p fuel (String c s) (S pos) = S <$> scan_while p fuel s pos.
Proof. apply (scan_while_shift p fuel (String c EmptyString) s pos). Qed.

(** The string rule: an opening quote, a body without a quote, and then
    either the closing quote or the end of the input.  In both cases the
    position moves two past the body, which without a closing quote is
    one past the end of the input. *)
Lemma next_token_string fuel body t :
  string_forall not_dquote body = true → stops not_dquote t = true →
  String.length body ≤ fuel →
  next_token fuel (dq +:+ body +:+ t) 0
  = Some (mkToken STRING_LITERAL body, S (S (String.length body))).
Proof.
  intros Hbody Ht Hfuel.
  change (dq +:+ body +:+ t) with (String dquote (body +:+ t)).
  unfold next_token, skip_whitespace.
  rewrite scan_while_halt by done.
  change (Some ?x ≫= ?f) with (f x). cbv beta.
  rewrite scan_while_tail, scan_while_run by done.
  unfold substr, char_at. simpl.
  by rewrite Nat.sub_0_r, substring_app_l.
Qed.

Lemma next_token_out fuel t :
  next_token fuel ("out" +:+ t) 0 = Some (mkToken OUT "out", 3).
Proof. destruct fuel, t; reflexivity. Qed.

Lemma next_token_gt fuel t :
  next_token fuel (">>" +:+ t) 0 = Some (mkToken GREATER_THAN ">>", 2).
Proof. destruct fuel, t; reflexivity. Qed.

Lemma next_token_in fuel t :
  next_token fuel ("in" +:+ t) 0 = Some (mkToken IN "in", 2).
Proof. destruct fuel, t; reflexivity. Qed.

Lemma next_token_lt fuel t :
  next_token fuel ("<<" +:+ t) 0 = Some (mkToken LESS_THAN "<<", 2).
Proof. destruct fuel, t; reflexivity. Qed.

Lemma next_token_stop fuel t :
  next_token fuel ("stop" +:+ t) 0 = Some (mkToken STOP "stop", 4).
Proof. destruct fuel, t; reflexivity. Qed.

Lemma next_token_semicolon fuel t :
  next_token fuel (";" +:+ t) 0 = Some (mkToken END_STATEMENT ";", 1).
Proof. destruct fuel, t; reflexivity. Qed.

(** White space in front of a token is not part of it. *)
Lemma next_token_after_skip fuel input pos r :
  scan_while isspace fuel input pos = Some r →
  next_token fuel input pos = next_token fuel input r.
Proof.
  intros Hskip. unfold next_token, skip_whitespace. rewrite Hskip.
  assert (scan_while isspace fuel input r = Some r) as ->; [|done].
  rewrite scan_while_eq.
  destruct (scan_while_stop _ _ _ _ _ Hskip) as [[Hend| ->] _].
  - apply Nat.ltb_ge in Hend. by rewrite Hend.
  - by rewrite andb_false_r.
Qed.

Lemma next_token_skip_run fuel ws t :
  string_forall isspace ws = true → stops isspace t = true →
  String.length ws ≤ fuel →
  next_token fuel (ws +:+ t) 0
  = (λ '(tok, r), (tok, String.length ws + r)) <$> next_token fuel t 0.
Proof.
  intros Hws Ht Hfuel.
  rewrite (next_token_after_skip _ _ _ _ (scan_while_run _ _ _ _ Hws Ht Hfuel)).
  rewrite <- (Nat.add_0_r (String.length ws)) at 1.
  apply next_token_shift.
Qed.

Lemma tokenize_loop_step fuel input pos tokens tok pos' :
  pos < String.length input →
  next_token fuel input pos = Some (tok, pos') → type tok ≠ UNKNOWN →
  tokenize_loop (S fuel) input pos tokens
  = tokenize_loop fuel input pos' (tokens ++ [tok]).
Proof.
  intros Hpos Hnext Htype. rewrite tokenize_loop_eq.
  apply Nat.ltb_lt in Hpos. rewrite Hpos, Hnext. by destruct (decide _).
Qed.

Lemma tokenize_loop_end fuel input pos tokens :
  String.length input ≤ pos →
  tokenize_loop fuel input pos tokens = Some (inr tokens).
Proof.
  intros Hpos. rewrite tokenize_loop_eq.
  apply Nat.ltb_ge in Hpos. by rewrite Hpos.
Qed.

(** The loop standing in front of a quote that is never closed. *)
Lemma tokenize_loop_unterminated fuel pre ws body tokens :
  string_forall isspace ws = true →
  string_forall not_dquote body = true →
  S (S (String.length ws + String.length body)) ≤ fuel →
  tokenize_loop fuel (pre +:+ ws +:+ dq +:+ body) (String.length pre) tokens
  = Some (inr (tokens ++ [mkToken STRING_LITERAL body])).
Proof.
  intros Hws Hbody Hfuel.
  rewrite <- (Nat.add_0_r (String.length pre)), tokenize_loop_shift.
  destruct fuel as [|fuel]; [lia|].
  rewrite (tokenize_loop_step _ _ _ _ (mkToken STRING_LITERAL body)
             (String.length ws + S (S (String.length body)))).
  - apply tokenize_loop_end. rewrite !length_app. simpl. lia.
  - rewrite !length_app. simpl. lia.
  - rewrite next_token_skip_run by (done || lia).
    rewrite <- (app_empty_r body) at 1.
    rewrite next_token_string by (done || lia). done.
  - done.
Qed.
End head_token_fixed.

Example tokenize_unterminated :
  tokenize ("out " +:+ dq +:+ "abc") =
    Some (inr [mkToken OUT "out"; mkToken STRING_LITERAL "abc"]).
Proof. vm_compute. reflexivity. Qed.

(** * Keywords in front of identifiers *)

Lemma next_token_keyword fuel ty kw t :
  (ty, kw) ∈ keyword_rules →
  next_token fuel (kw +:+ t) 0 = Some (mkToken ty kw, String.length kw).
Proof.
  unfold keyword_rules. rewrite !elem_of_cons, elem_of_nil.
  intros [[= -> ->]|[[= -> ->]|[[= -> ->]|[]]]].
  - apply next_token_out.
  - apply next_token_in.
  - apply next_token_stop.
Qed.

Lemma keyword_rules_known ty kw :
  (ty, kw) ∈ keyword_rules → ty ≠ UNKNOWN ∧ 0 < String.length kw.
Proof.
  unfold keyword_rules. rewrite !elem_of_cons, elem_of_nil.
  intros [[= -> ->]|[[= -> ->]|[[= -> ->]|[]]]]; simpl; split; (done || lia).
Qed.

Lemma identifier_text_length v : identifier_text v = true → 0 < String.length v.
Proof. destruct v; simpl; [done | lia]. Qed.

Lemma tokenize_keyword_identifier ty kw rest :
  (ty, kw) ∈ keyword_rules →
  identifier_text rest = true → begins_with_keyword rest = false →
  tokenize (kw +:+ rest) = Some (inr [mkToken ty kw; mkToken VAR_NAME rest]).
Proof.
  intros Hkw Hid Hrest.
  destruct (keyword_rules_known _ _ Hkw) as [Hty Hlen].
  pose proof (identifier_text_length _ Hid) as Hlen'.
  assert (0 < String.length (kw +:+ rest)) as Hpos by (rewrite length_app; lia).
  apply (tokenize_loop_tokenize (S (S (String.length rest)))).
  rewrite (tokenize_loop_step _ _ _ _ _ _ Hpos (next_token_keyword _ _ _ _ Hkw) Hty).
  rewrite <- (Nat.add_0_r (String.length kw)), tokenize_loop_shift.
  rewrite (tokenize_loop_step _ _ _ _ (mkToken VAR_NAME rest) (String.length rest));
    [by apply tokenize_loop_end | done | | done].
  pose proof (next_token_identifier (String.length rest) rest EmptyString
                Hid Hrest eq_refl (le_n _)) as Hnext.
  by rewrite app_empty_r in Hnext.
Qed.

(** The same wherever the loop of [tokenize] stands: in front of the
    keyword may be any text already lexed, and after the identifier any
    text that does not go on with a letter or a digit. *)
Lemma tokenize_loop_keyword_identifier fuel pre ty kw rest tail tokens :
  (ty, kw) ∈ keyword_rules →
  identifier_text rest = true → begins_with_keyword rest = false →
  stops isalnum tail = true → String.length rest ≤ fuel →
  tokenize_loop (S (S fuel)) (pre +:+ kw +:+ rest +:+ tail) (String.length pre) tokens
  = tokenize_loop fuel tail 0 (tokens ++ [mkToken ty kw; mkToken VAR_NAME rest]).
Proof.
  intros Hkw Hid Hrest Htail Hfuel.
  destruct (keyword_rules_known _ _ Hkw) as [Hty Hlen].
  pose proof (identifier_text_length _ Hid) as Hlen'.
  assert (0 < String.length (kw +:+ rest +:+ tail)) as Hpos
    by (rewrite length_app; lia).
  assert (0 < String.length (rest +:+ tail)) as Hpos'
    by (rewrite length_app; lia).
  rewrite <- (Nat.add_0_r (String.length pre)), tokenize_loop_shift.
  rewrite (tokenize_loop_step _ _ _ _ _ _ Hpos (next_token_keyword _ _ _ _ Hkw) Hty).
  rewrite <- (Nat.add_0_r (String.length kw)), tokenize_loop_shift.
  rewrite (tokenize_loop_step _ _ _ _ _ _ Hpos'
             (next_token_identifier _ _ _ Hid Hrest Htail Hfuel) ltac:(done)).
  rewrite <- (Nat.add_0_r (String.length rest)), tokenize_loop_shift.
  by rewrite <- app_assoc.
Qed.

(** C1, as the code has it.  A keyword rule looks at the next characters
    only, never at what follows them.  So a text that starts with one of
    [out], [in], [stop] and goes on as an identifier that does not itself
    start with a keyword is split into the keyword token and an identifier
    token for the rest, as a whole input and wherever the loop of
    [tokenize] stands on it: [output] is [out] and [put].  Texts that
    start with [int] are left aside. *)
Theorem C1_keyword_splits_identifier :
  (∀ ty kw rest,
     (ty, kw) ∈ keyword_rules →
     identifier_text rest = true → begins_with_keyword rest = false →
     String.prefix "int" (kw +:+ rest) = false →
     tokenize (kw +:+ rest) = Some (inr [mkToken ty kw; mkToken VAR_NAME rest]))
  ∧ (∀ fuel pre ty kw rest tail tokens,
       (ty, kw) ∈ keyword_rules →
       identifier_text rest = true → begins_with_keyword rest = false →
       String.prefix "int" (kw +:+ rest) = false →
       stops isalnum tail = true → String.length rest ≤ fuel →
       tokenize_loop (S (S fuel)) (pre +:+ kw +:+ rest +:+ tail)
         (String.length pre) tokens
       = tokenize_loop fuel tail 0
           (tokens ++ [mkToken ty kw; mkToken VAR_NAME rest]))
  ∧ tokenize "output" = Some (inr [mkToken OUT "out"; mkToken VAR_NAME "put"]).
Proof.
  split; [intros; by apply tokenize_keyword_identifier|].
  split; [intros; by apply tokenize_loop_keyword_identifier|].
  vm_compute; reflexivity.
Qed.

Lemma C1_keyword_splits_identifier_witness :
  tokenize ("stop" +:+ "watch")
  = Some (inr [mkToken STOP "stop"; mkToken VAR_NAME "watch"]).
Proof.
  apply (proj1 C1_keyword_splits_identifier STOP "stop" "watch");
    [unfold keyword_rules; rewrite !elem_of_cons; auto
    | reflexivity | reflexivity | reflexivity].
Defined.

(** C1 as stated fails: what follows the keyword is lexed by the same
    rules, so it is an identifier token only when it is one for them.  In
    the identifier [outin] the rest is the keyword [in]; in [out1] the
    rest starts with a digit, which no rule knows, and [tokenize]
    throws. *)
Lemma C1_rest_counterexample :
  identifier_text "outin" = true
  ∧ tokenize "outin" = Some (inr [mkToken OUT "out"; mkToken IN "in"])
  ∧ tokenize "outin" ≠ Some (inr [mkToken OUT "out"; mkToken VAR_NAME "in"])
  ∧ identifier_text "out1" = true
  ∧ tokenize "out1" = Some (inl (runtime_error "Unknown token encountered")).
Proof.
  split; [reflexivity|]. split; [vm_compute; reflexivity|].
  split; [vm_compute; discriminate|].
  split; [reflexivity | vm_compute; reflexivity].
Qed.

(** * The sample program *)

(** C3, as the code has it.  The sample source gives the twelve tokens of
    [sample_tokens], and parsing them gives exactly three statements:
    [OutStatement ["hi"]], [InStatement "a"], [OutStatement ["a"]], in
    that order. *)
Theorem C3_sample_tokens_and_statements :
  tokenize sample = Some (inr sample_tokens)
  ∧ ∃ statements,
      parse sample_tokens = Some (inr statements)
      ∧ statements = [OutStatement ["hi"]; InStatement "a"; OutStatement ["a"]]
      ∧ length statements = 3.
Proof.
  split; [vm_compute; reflexivity|].
  eexists. split; [vm_compute; reflexivity|]. by split.
Qed.

(** C3 as stated asks for exactly two statements; the parser returns the
    three it lists. *)
Lemma C3_two_statements_counterexample :
  ¬ ∃ statements,
      parse sample_tokens = Some (inr statements) ∧ length statements = 2.
Proof.
  intros (statements & Hparse & Hlen).
  vm_compute in Hparse. injection Hparse as <-. discriminate Hlen.
Qed.

(** * Malformed [in] statements *)

Section parser_facts.
Implicit Types (tokens : list Token) (fuel idx i j : nat).

Lemma parse_out_loop_eq fuel tokens idx targets :
  parse_out_loop fuel tokens idx targets =
    match tokens !! idx with
    | Some t =>
        if bool_decide (type t = GREATER_THAN) then
          match fuel with
          | 0 => None
          | S fuel' => parse_out_loop fuel' tokens (S idx) targets
          end
        else if bool_decide (type t = STRING_LITERAL)
                || bool_decide (type t = VAR_NAME) then
          match fuel with
          | 0 => None
          | S fuel' => parse_out_loop fuel' tokens (S idx) (targets ++ [value t])
          end
        else Some (targets, idx)
    | None => Some (targets, idx)
    end.
Proof. by destruct fuel. Qed.

Lemma parse_loop_eq fuel tokens idx statements :
  parse_loop fuel tokens idx statements =
    match tokens !! idx with
    | Some t =>
        match fuel with
        | 0 => None
        | S fuel' =>
            if bool_decide (type t = OUT) then
              '(stmt, idx) ← parse_out_statement fuel' tokens idx;
              parse_loop fuel' tokens idx (statements ++ [stmt])
            else if bool_decide (type t = IN) then
              match parse_in_statement tokens idx with
              | inl e => Some (inl e)
              | inr (stmt, idx) => parse_loop fuel' tokens idx (statements ++ [stmt])
              end
            else parse_loop fuel' tokens (S idx) statements
        end
    | None => Some (inr statements)
    end.
Proof. by destruct fuel. Qed.

(** The loop of [parse_out_statement] ends, and it steps over no [in]. *)
Lemma parse_out_loop_spec fuel tokens idx targets :
  length tokens - idx ≤ fuel →
  ∃ targets' j,
    parse_out_loop fuel tokens idx targets = Some (targets', j)
    ∧ idx ≤ j
    ∧ ∀ k t, idx ≤ k < j → tokens !! k = Some t → type t ≠ IN.
Proof.
  revert idx targets. induction fuel as [|fuel IH]; intros idx targets Hfuel;
    rewrite parse_out_loop_eq;
    (destruct (tokens !! idx) as [t|] eqn:Ht;
     [|eexists _, _; split; [done|]; split; [done | intros; lia]]);
    pose proof (lookup_lt_Some _ _ _ Ht);
    repeat case_bool_decide; simpl;
    try lia;
    try (eexists _, _; split; [done|]; split; [done | intros; lia]).
  all: edestruct (IH (S idx)) as (targets' & j & -> & Hj & Hin); [lia|];
    eexists _, _; (split; [done|]); (split; [lia|]);
    intros k t' Hk Hk';
    (destruct (decide (k = idx)) as [->|]; [simplify_eq; congruence|]);
    eapply Hin; [|done]; lia.
Qed.

Lemma parse_out_statement_spec fuel tokens idx :
  length tokens - S idx ≤ fuel →
  ∃ stmt j,
    parse_out_statement fuel tokens idx = Some (stmt, j)
    ∧ idx < j
    ∧ ∀ k t, idx < k < j → tokens !! k = Some t → type t ≠ IN.
Proof.
  intros Hfuel. unfold parse_out_statement.
  destruct (parse_out_loop_spec fuel tokens (S idx) [] Hfuel)
    as (targets & j & -> & Hj & Hin). simpl.
  destruct (tokens !! j) as [t|] eqn:Ht;
    [case_bool_decide|]; eexists _, _; (split; [done|]); (split; [lia|]);
    try (intros; eapply Hin; [|done]; lia).
  intros k t' Hk Hk'. destruct (decide (k = j)) as [->|].
  - simplify_eq. congruence.
  - eapply Hin; [|done]. lia.
Qed.

Lemma parse_in_statement_inv tokens idx :
  parse_in_statement tokens idx = inl invalid_in
  ∨ ∃ t1 t2,
      tokens !! S idx = Some t1 ∧ type t1 = LESS_THAN
      ∧ tokens !! S (S idx) = Some t2 ∧ type t2 = VAR_NAME
      ∧ parse_in_statement tokens idx = inr (InStatement (value t2), S (S (S idx))).
Proof.
  unfold parse_in_statement.
  destruct (tokens !! S idx) as [t1|] eqn:H1; [|by left].
  case_bool_decide; [|by left].
  destruct (tokens !! S (S idx)) as [t2|] eqn:H2; [|by left].
  case_bool_decide; [|by left].
  right. by exists t1, t2.
Qed.

(** From any state of the loop of [parse] at or before a malformed [in],
    the loop throws. *)
Lemma parse_loop_in_error fuel tokens idx statements i t :
  S (length tokens - idx) ≤ fuel → idx ≤ i →
  tokens !! i = Some t → type t = IN →
  followed_by_redirect_and_name tokens i = false →
  parse_loop fuel tokens idx statements = Some (inl invalid_in).
Proof.
  intros Hfuel Hle Hi Hty Hbad. revert idx statements Hfuel Hle.
  pose proof (lookup_lt_Some _ _ _ Hi) as Hlen.
  induction fuel as [|fuel IH]; intros idx statements Hfuel Hle; [lia|].
  rewrite parse_loop_eq.
  destruct (lookup_lt_is_Some_2 tokens idx) as [t' Ht']; [lia|]. rewrite Ht'.
  case_bool_decide as Hout; [|case_bool_decide as Hin].
  - destruct (parse_out_statement_spec fuel tokens idx) as (stmt & j & -> & Hj & Hskip);
      [lia|]. simpl.
    apply IH; [lia|].
    destruct (decide (i = idx)) as [->|]; [simplify_eq; congruence|].
    destruct (decide (i < j)); [|lia].
    exfalso. eapply (Hskip i t); [lia | done | done].
  - destruct (parse_in_statement_inv tokens idx)
      as [->|(t1 & t2 & H1 & Hty1 & H2 & Hty2 & ->)]; [done|].
    apply IH; [lia|].
    destruct (decide (i = idx)) as [->|].
    { unfold followed_by_redirect_and_name in Hbad. rewrite H1, H2 in Hbad.
      by rewrite !bool_decide_eq_true_2 in Hbad. }
    destruct (decide (i = S idx)) as [->|]; [simplify_eq; congruence|].
    destruct (decide (i = S (S idx))) as [->|]; [simplify_eq; congruence|].
    lia.
  - apply IH; [lia|].
    destruct (decide (i = idx)) as [->|]; [simplify_eq; congruence | lia].
Qed.
End parser_facts.

(** C4.  An [in] token that is not followed by [<<] and then a name makes
    [parse] fail with [runtime_error("Invalid 'in' statement")], wherever
    it stands in the token sequence: nothing before it can swallow it, and
    the loop of [parse], from any cursor at or before it, ends by throwing
    rather than by skipping it. *)
Theorem C4_malformed_in_fails tokens i t :
  tokens !! i = Some t → type t = IN →
  followed_by_redirect_and_name tokens i = false →
  parse tokens = Some (inl (runtime_error "Invalid 'in' statement"))
  ∧ ∀ fuel idx statements,
      S (length tokens - idx) ≤ fuel → idx ≤ i →
      parse_loop fuel tokens idx statements
      = Some (inl (runtime_error "Invalid 'in' statement")).
Proof.
  intros Hi Hty Hbad. split.
  - apply (parse_loop_in_error _ _ _ _ i t); (done || lia).
  - intros. by apply (parse_loop_in_error _ _ _ _ i t).
Qed.

Lemma C4_malformed_in_fails_witness :
  parse [mkToken OUT "out"; mkToken VAR_NAME "x"; mkToken IN "in"; mkToken VAR_NAME "a"]
  = Some (inl (runtime_error "Invalid 'in' statement")).
Proof.
  refine (proj1 (C4_malformed_in_fails
           [mkToken OUT "out"; mkToken VAR_NAME "x"; mkToken IN "in"; mkToken VAR_NAME "a"]
           2 (mkToken IN "in") _ _ _));
    reflexivity.
Defined.

(** * Executing statements *)

Section executor_facts.
Implicit Types (variables : gmap string string) (io : Streams)
  (targets : list string).

Lemma subscript_present variables key v :
  variables !! key = Some v → subscript variables key = (v, variables).
Proof. unfold subscript. by intros ->. Qed.

(** What [OutStatement::execute] does to the map and to the streams. *)
Lemma OutStatement_execute_spec targets variables io :
  OutStatement_execute targets variables io
  = (variables,
     mkStreams (cin io)
       (cout io ++ map (λ target,
                          match variables !! target with
                          | Some v => v
                          | None => target
                          end) targets)
       (cerr io)).
Proof.
  revert io. induction targets as [|target targets IH]; intros [i o e]; simpl.
  - by rewrite app_nil_r.
  - destruct (variables !! target) as [v|] eqn:Hv.
    + rewrite bool_decide_eq_true_2 by done.
      rewrite (subscript_present _ _ _ Hv), IH. simpl.
      by rewrite <- app_assoc.
    + rewrite bool_decide_eq_false_2 by (by intros [? ?]).
      rewrite IH. simpl. by rewrite <- app_assoc.
Qed.

End executor_facts.

Lemma text_lines_write s text :
  one_line s = true →
  text_lines (s +:+ String newline text) = s :: text_lines text.
Proof.
  induction s as [|c s IH]; [done|].
  unfold one_line. simpl. intros [Hc Hs]%andb_true_iff.
  apply negb_true_iff in Hc. rewrite Hc. by rewrite (IH Hs).
Qed.

(** Writes without a newline inside are the lines of the text. *)
Lemma text_lines_stream writes :
  Forall (λ s, one_line s = true) writes →
  text_lines (stream_text writes) = writes.
Proof.
  induction 1 as [|s writes Hs Hwrites IH]; [done|].
  simpl. by rewrite text_lines_write, IH.
Qed.

Lemma stream_text_app writes1 writes2 :
  stream_text (writes1 ++ writes2) = stream_text writes1 +:+ stream_text writes2.
Proof.
  induction writes1 as [|s writes1 IH]; [done|].
  simpl. by rewrite IH, app_assoc_s, append_cons.
Qed.

(** C6, as the code has it.  [OutStatement::execute] writes to standard
    output, for each target in the order of the targets, one text
    followed by a newline: the value the map holds for the target when
    the target is a key of the map at that moment, and the target itself
    otherwise.  A target that is the name of a defined variable therefore
    always prints the variable's value.  The texts are one line of output
    each when none of them holds a newline. *)
Theorem C6_out_statement_output targets variables io :
  let written :=
    map (λ target,
           match variables !! target with
           | Some v => v
           | None => target
           end) targets in
  cout (OutStatement_execute targets variables io).2 = cout io ++ written
  ∧ stream_text (cout (OutStatement_execute targets variables io).2)
    = stream_text (cout io) +:+ stream_text written
  ∧ (Forall (λ s, one_line s = true) written →
     text_lines (stream_text written) = written).
Proof.
  rewrite OutStatement_execute_spec. simpl.
  split; [done|]. split; [apply stream_text_app | apply text_lines_stream].
Qed.

Lemma C6_out_statement_output_witness :
  text_lines (stream_text
    (map (λ target,
            match (<["a" := "7"]> ∅ : gmap string string) !! target with
            | Some v => v
            | None => target
            end) ["a"; "b c"]))
  = map (λ target,
           match (<["a" := "7"]> ∅ : gmap string string) !! target with
           | Some v => v
           | None => target
           end) ["a"; "b c"].
Proof.
  refine (proj2 (proj2 (C6_out_statement_output ["a"; "b c"] (<["a" := "7"]> ∅)
                          (mkStreams [] [] []))) _).
  vm_compute. repeat constructor.
Defined.

(** C6 as stated fails: a string literal may hold a newline, and the one
    write for such a target is two lines on standard output. *)
Lemma C6_newline_counterexample :
  tokenize ("out " +:+ dq +:+ "a" +:+ String newline "b" +:+ dq)
  = Some (inr [mkToken OUT "out";
               mkToken STRING_LITERAL ("a" +:+ String newline "b")])
  ∧ parse [mkToken OUT "out"; mkToken STRING_LITERAL ("a" +:+ String newline "b")]
    = Some (inr [OutStatement ["a" +:+ String newline "b"]])
  ∧ text_lines (stream_text (cout
      (OutStatement_execute ["a" +:+ String newline "b"] ∅ (mkStreams [] [] [])).2))
    = ["a"; "b"]
  ∧ length (text_lines (stream_text (cout
      (OutStatement_execute ["a" +:+ String newline "b"] ∅ (mkStreams [] [] [])).2)))
    ≠ length ["a" +:+ String newline "b"].
Proof.
  split; [vm_compute; reflexivity|]. split; [vm_compute; reflexivity|].
  split; [vm_compute; reflexivity|]. vm_compute. discriminate.
Qed.

(** C9.  Executing an [OutStatement] returns the map it was given, with no
    key added, removed or changed, and reads nothing from standard input;
    a statement whose execution changes the map is an [InStatement]. *)
Theorem C9_out_statement_keeps_variables :
  (∀ targets variables io,
     ∃ io', execute (OutStatement targets) variables io = inr (variables, io')
            ∧ cin io' = cin io)
  ∧ (∀ stmt variables io variables' io',
       execute stmt variables io = inr (variables', io') →
       variables' ≠ variables →
       ∃ var_name, stmt = InStatement var_name).
Proof.
  split.
  - intros targets variables io. simpl. rewrite OutStatement_execute_spec.
    by eexists.
  - intros [targets|var_name] variables io variables' io'; [|by eexists].
    simpl. rewrite OutStatement_execute_spec. by intros [= <- _].
Qed.

Lemma C9_out_statement_keeps_variables_witness :
  ∃ var_name, InStatement "a" = InStatement var_name.
Proof.
  apply (proj2 C9_out_statement_keeps_variables (InStatement "a") ∅
           (mkStreams ["7"] [] []) (<["a" := "7"]> ∅) (mkStreams [] [] [])).
  - reflexivity.
  - intros Heq. apply (f_equal (λ m : gmap string string, m !! "a")) in Heq.
    by rewrite lookup_insert_eq, lookup_empty in Heq.
Defined.

(** C2 fails on the code: a line holding a number too large for [int]
    makes [std::stoi] throw [std::out_of_range], which
    [InStatement::execute] does not catch.  The exception leaves
    [Interpreter::execute]; the statement after it is not executed. *)
Theorem C2_out_of_range_aborts :
  Interpreter_execute [InStatement "a"; OutStatement ["a"]]
    (mkStreams ["99999999999"] [] [])
  = inl (out_of_range "stoi").
Proof. vm_compute. reflexivity. Qed.

(** [std::out_of_range] is the only way out: as long as no line read
    overflows, every statement is executed. *)
Lemma execute_all_completes statements variables io :
  Forall (λ line, stoi line ≠ inl (out_of_range "stoi")) (cin io) →
  ∃ variables' io', execute_all statements variables io = inr (variables', io').
Proof.
  revert variables io.
  induction statements as [|[targets|var_name] statements IH];
    intros variables io Hcin; simpl.
  - by eexists _, _.
  - rewrite OutStatement_execute_spec. by apply IH.
  - unfold InStatement_execute, getline.
    destruct io as [[|line rest] o e]; simpl in *.
    + apply IH. by simpl.
    + apply Forall_cons in Hcin as [Hline Hrest].
      destruct (stoi line) as [[]|value] eqn:Hstoi; try (by apply IH).
      * unfold stoi in Hstoi. repeat case_match; simplify_eq.
      * unfold stoi in Hstoi. repeat case_match; simplify_eq.
Qed.

(** * Lines that are not numbers *)

Lemma stoi_invalid_argument line :
  stoi line = inl (invalid_argument "stoi") ↔ no_leading_number line = true.
Proof.
  unfold stoi, no_leading_number.
  destruct (strip_sign (skip_spaces line)) as [negative s]. simpl.
  destruct (isdigit (char_at s 0)); [|done].
  destruct (_ && _)%Z; split; done.
Qed.

Lemma isspace_not_digit c : isspace c = true → isdigit c = false.
Proof. destruct c as [[] [] [] [] [] [] [] []]; vm_compute; congruence. Qed.

Lemma isspace_not_sign c s :
  isspace c = true → strip_sign (String c s) = (false, String c s).
Proof. destruct c as [[] [] [] [] [] [] [] []]; vm_compute; congruence. Qed.

(** Such a line is never the text of an integer. *)
Lemma no_leading_number_not_integer line :
  no_leading_number line = true → is_integer_text line = false.
Proof.
  unfold no_leading_number, is_integer_text.
  destruct line as [|c s]; [done|].
  cbn [skip_spaces]. destruct (isspace c) eqn:Hc.
  - intros _. rewrite (isspace_not_sign _ _ Hc). simpl.
    by rewrite (isspace_not_digit _ Hc).
  - destruct (strip_sign (String c s)) as [negative [|d digits]]; simpl; [done|].
    unfold char_at. simpl. by intros ->%negb_true_iff.
Qed.

(** C5, as the code has it.  When [std::stoi] finds no number in the line
    read, [InStatement::execute] writes the one diagnostic line to standard
    error and stores ["0"] under its variable name, and the statements
    after it are executed from that state. *)
Theorem C5_invalid_input_stores_zero
    var_name line rest out err variables statements :
  no_leading_number line = true →
  InStatement_execute var_name variables (mkStreams (line :: rest) out err)
  = inr (<[var_name := "0"]> variables,
         mkStreams rest out (err ++ ["Invalid input. Please enter an integer."]))
  ∧ execute_all (InStatement var_name :: statements) variables
      (mkStreams (line :: rest) out err)
    = execute_all statements (<[var_name := "0"]> variables)
        (mkStreams rest out (err ++ ["Invalid input. Please enter an integer."])).
Proof.
  intros Hline%stoi_invalid_argument.
  assert (InStatement_execute var_name variables (mkStreams (line :: rest) out err)
          = inr (<[var_name := "0"]> variables,
                 mkStreams rest out (err ++ [diagnostic]))) as Hexec.
  { unfold InStatement_execute, getline. simpl. by rewrite Hline. }
  split; [done|]. simpl. by rewrite Hexec.
Qed.

(** With the line [abc] the variable [a] is bound to ["0"], which the
    [out >> a] after it prints. *)
Lemma C5_invalid_input_stores_zero_witness :
  execute_all [InStatement "a"; OutStatement ["a"]] ∅ (mkStreams ["abc"] ["hi"] [])
  = inr (<["a" := "0"]> ∅,
         mkStreams [] ["hi"; "0"] ["Invalid input. Please enter an integer."]).
Proof.
  rewrite (proj2 (C5_invalid_input_stores_zero "a" "abc" [] ["hi"] [] ∅
                    [OutStatement ["a"]] eq_refl)).
  reflexivity.
Defined.

(** C5 as stated fails: [12abc] is not an integer, yet [std::stoi] reads
    the [12] in front; nothing is written to standard error and the
    variable holds ["12"]. *)
Lemma C5_trailing_text_counterexample :
  is_integer_text "12abc" = false
  ∧ InStatement_execute "a" ∅ (mkStreams ["12abc"] [] [])
    = inr (<["a" := "12"]> ∅, mkStreams [] [] [])
  ∧ InStatement_execute "a" ∅ (mkStreams ["12abc"] [] [])
    ≠ inr (<["a" := "0"]> ∅,
           mkStreams [] [] ["Invalid input. Please enter an integer."]).
Proof.
  split; [reflexivity|]. split; [reflexivity|].
  intros Heq. vm_compute in Heq. discriminate Heq.
Qed.

(** * Lexing the lexemes again *)

Lemma string_split input r :
  r ≤ String.length input →
  ∃ pre rest, input = pre +:+ rest ∧ String.length pre = r.
Proof.
  revert input. induction r as [|r IH]; intros input Hr.
  - by exists EmptyString, input.
  - destruct input as [|c input]; simpl in Hr; [lia|].
    destruct (IH input) as (pre & rest & -> & <-); [lia|].
    by exists (String c pre), rest.
Qed.

(** The run a scan has passed satisfies its test. *)
Lemma scan_while_prefix p fuel s n :
  scan_while p fuel s 0 = Some n →
  string_forall p (String.substring 0 n s) = true.
Proof.
  revert fuel n. induction s as [|c s IH]; intros fuel n.
  - rewrite scan_while_eq. simpl. by intros [= <-].
  - destruct fuel as [|fuel].
    + rewrite scan_while_eq. simpl. unfold char_at. simpl.
      destruct (p c); [done|]. by intros [= <-].
    + rewrite scan_while_cons. destruct (p c) eqn:Hc; [|by intros [= <-]].
      destruct (scan_while p fuel s 0) as [m|] eqn:Hscan; [|done].
      intros [= <-]. simpl. rewrite Hc. by eapply IH.
Qed.

Lemma prefix_substring k n s :
  String.prefix k (String.substring 0 n s) = true →
  String.substring 0 (String.length k) s = k.
Proof.
  revert n s. induction k as [|a k IH]; intros n s.
  - intros _. apply substring_0_0.
  - destruct s as [|c s], n as [|n]; simpl; try done.
    destruct (ascii_dec a c) as [->|]; [|done].
    intros Hk. by rewrite (IH _ _ Hk).
Qed.

(** The token read at the head of a text that does not start with white
    space is a produced one, when it is not [UNKNOWN]. *)
Lemma next_token_head_produced fuel c s t n :
  isspace c = false →
  next_token fuel (String c s) 0 = Some (t, n) →
  produced t = true ∨ type t = UNKNOWN.
Proof.
  intros Hc. unfold next_token, skip_whitespace.
  rewrite scan_while_halt by (simpl; by rewrite Hc).
  change (Some ?x ≫= ?f) with (f x). cbv beta.
  change (String.length (String c s) <=? 0) with false. cbv iota.
  case_match eqn:Hout; [intros [= <- _]; by left|].
  case_match eqn:Hgt; [intros [= <- _]; by left|].
  case_match eqn:Hin; [intros [= <- _]; by left|].
  case_match eqn:Hlt; [intros [= <- _]; by left|].
  case_match eqn:Hstop; [intros [= <- _]; by left|].
  case_match eqn:Hint.
  { exfalso. apply String.eqb_eq in Hint. apply String.eqb_neq in Hin.
    apply Hin, substring_int_in, Hint. }
  case_match eqn:Hq.
  { rewrite scan_while_tail.
    destruct (scan_while not_dquote fuel s 0) as [m|] eqn:Hscan; [simpl|done].
    intros [= <- _]. left. unfold produced, substr. simpl.
    rewrite Nat.sub_0_r. by eapply scan_while_prefix. }
  case_match eqn:Halpha.
  { unfold char_at in Halpha. simpl in Halpha.
    destruct fuel as [|fuel].
    { rewrite scan_while_eq. unfold char_at. simpl.
      by rewrite (isalpha_isalnum _ Halpha). }
    rewrite scan_while_cons, (isalpha_isalnum _ Halpha).
    destruct (scan_while isalnum fuel s 0) as [m|] eqn:Hscan; [simpl|done].
    intros [= <- _]. left. unfold produced, substr. simpl.
    rewrite Halpha, (scan_while_prefix _ _ _ _ Hscan). simpl.
    apply negb_true_iff. unfold begins_with_keyword.
    apply String.eqb_neq in Hout, Hin, Hstop.
    rewrite !orb_false_iff. repeat split; apply not_true_is_false; intros Hpre.
    - apply Hout. apply (prefix_substring "out" (S m) (String c s) Hpre).
    - apply Hin. apply (prefix_substring "in" (S m) (String c s) Hpre).
    - apply Hstop. apply (prefix_substring "stop" (S m) (String c s) Hpre). }
  case_match; intros [= <- _]; [by left | by right].
Qed.

(** Every token [next_token] returns is a produced one, or the one for the
    end of the input, or [UNKNOWN]. *)
Lemma next_token_produced fuel input pos t pos' :
  next_token fuel input pos = Some (t, pos') →
  produced t = true
  ∨ (t = end_token ∧ String.length input ≤ pos')
  ∨ type t = UNKNOWN.
Proof.
  intros Hnext.
  destruct (scan_while isspace fuel input pos) as [r|] eqn:Hskip;
    [|by unfold next_token, skip_whitespace in Hnext; rewrite Hskip in Hnext].
  rewrite (next_token_after_skip _ _ _ _ Hskip) in Hnext.
  destruct (Nat.le_gt_cases (String.length input) r) as [Hend|Hin].
  - right. left. unfold next_token, skip_whitespace in Hnext.
    rewrite scan_while_eq in Hnext.
    rewrite (proj2 (Nat.ltb_ge _ _) Hend) in Hnext. simpl in Hnext.
    rewrite (proj2 (Nat.leb_le _ _) Hend) in Hnext. by simplify_eq.
  - destruct (scan_while_stop _ _ _ _ _ Hskip) as [[Hend|Hc] _]; [lia|].
    destruct (string_split input r) as (pre & rest & -> & <-); [lia|].
    rewrite length_app in Hin.
    destruct rest as [|c s]; [simpl in Hin; lia|].
    rewrite <- (Nat.add_0_r (String.length pre)) in Hnext, Hc.
    rewrite char_at_app_r in Hc. rewrite next_token_shift in Hnext.
    destruct (next_token fuel (String c s) 0) as [[t' n]|] eqn:Hhead; [|done].
    simpl in Hnext. simplify_eq.
    destruct (next_token_head_produced _ _ _ _ _ Hc Hhead); auto.
Qed.

Lemma space_or_end_stops rest :
  space_or_end rest = true → stops isalnum rest = true.
Proof.
  destruct rest as [|c rest]; [done|]. simpl.
  by intros ->%Ascii.eqb_eq.
Qed.

(** A produced token is read back from its lexeme, when the lexeme is
    followed by a space or by nothing. *)
Lemma next_token_lexeme fuel t rest :
  produced t = true → space_or_end rest = true →
  String.length (lexeme t) ≤ fuel →
  next_token fuel (lexeme t +:+ rest) 0 = Some (t, String.length (lexeme t)).
Proof.
  destruct t as [ty v]. unfold produced, lexeme. simpl.
  destruct ty; intros Hp Hrest Hfuel; try done;
    try (apply String.eqb_eq in Hp as ->).
  - apply next_token_out.
  - apply next_token_in.
  - apply next_token_gt.
  - apply next_token_lt.
  - rewrite length_app, length_app in *. simpl in *.
    rewrite !app_assoc_s.
    rewrite next_token_string by (done || lia).
    do 3 f_equal. lia.
  - apply andb_true_iff in Hp as [Hid Hkw%negb_true_iff].
    apply next_token_identifier; auto using space_or_end_stops.
  - apply next_token_stop.
  - apply next_token_semicolon.
Qed.

Lemma lexeme_head t rest :
  produced t = true →
  stops isspace (lexeme t +:+ rest) = true
  ∧ 0 < String.length (lexeme t)
  ∧ type t ≠ UNKNOWN.
Proof.
  destruct t as [ty v]. unfold produced, lexeme. simpl.
  destruct ty; intros Hp; try done;
    try (apply String.eqb_eq in Hp as ->; simpl; split; [done | split; [lia | done]]).
  - split; [done|]. split; [simpl; lia | done].
  - apply andb_true_iff in Hp as [Hid _].
    destruct v as [|c v]; [done|]. simpl in Hid.
    apply andb_true_iff in Hid as [Hc _].
    rewrite append_cons. simpl. rewrite (isalpha_not_space _ Hc).
    split; [done|]. split; [lia | done].
Qed.

Lemma space_or_end_spaced ts : space_or_end (spaced ts) = true.
Proof. by destruct ts. Qed.

(** Lexing the lexemes, a space in front of each, gives the tokens. *)
Lemma tokenize_loop_spaced ts fuel tokens :
  relexable ts → S (String.length (spaced ts)) ≤ fuel →
  tokenize_loop fuel (spaced ts) 0 tokens = Some (inr (tokens ++ ts)).
Proof.
  revert fuel tokens. induction ts as [|t ts IH]; intros fuel tokens Hts Hfuel.
  - rewrite app_nil_r. by apply tokenize_loop_end.
  - destruct fuel as [|fuel]; [lia|].
    simpl in Hts. destruct Hts as [[Ht Hts]|[-> ->]].
    + destruct (lexeme_head t (spaced ts) Ht) as (Hhead & Hlen & Hty).
      cbn [spaced] in *. rewrite !length_app in Hfuel. simpl in Hfuel.
      rewrite (tokenize_loop_step _ _ _ _ t (1 + String.length (lexeme t)));
        [| rewrite !length_app; simpl; lia | | done].
      * rewrite <- app_assoc_s.
        replace (1 + String.length (lexeme t))
          with (String.length (" " +:+ lexeme t) + 0)
          by (rewrite length_app; simpl; lia).
        rewrite tokenize_loop_shift, IH by (done || lia).
        by rewrite <- app_assoc.
      * rewrite (next_token_skip_run fuel " " _ eq_refl Hhead) by (simpl; lia).
        rewrite next_token_lexeme by (auto using space_or_end_spaced || lia).
        done.
    + rewrite (tokenize_loop_step _ _ _ _ end_token 1); [| simpl; lia | | done].
      * apply tokenize_loop_end. simpl. lia.
      * simpl in Hfuel.
        change (spaced [end_token]) with (" " +:+ "").
        rewrite (next_token_skip_run fuel " " EmptyString eq_refl eq_refl)
          by (simpl; lia).
        unfold next_token, skip_whitespace. by rewrite scan_while_eq.
Qed.

Lemma concat_lexemes t ts :
  String.concat " " (map lexeme (t :: ts)) = lexeme t +:+ spaced ts.
Proof.
  revert t. induction ts as [|t' ts IH]; intros t.
  - simpl. by rewrite app_empty_r.
  - change (String.concat " " (map lexeme (t :: t' :: ts)))
      with (lexeme t +:+ " " +:+ String.concat " " (map lexeme (t' :: ts))).
    by rewrite IH.
Qed.

(** Lexing the lexemes joined by single spaces gives the tokens. *)
Lemma tokenize_joined ts :
  relexable ts → ts ≠ [end_token] →
  tokenize (String.concat " " (map lexeme ts)) = Some (inr ts).
Proof.
  intros Hts Hne. destruct ts as [|t ts]; [done|].
  rewrite concat_lexemes.
  destruct Hts as [[Ht Hts]|[-> ->]]; [|done].
  destruct (lexeme_head t (spaced ts) Ht) as (_ & Hlen & Hty).
  unfold tokenize. rewrite length_app.
  rewrite (tokenize_loop_step _ _ _ _ t (String.length (lexeme t)));
    [| rewrite length_app; lia | | done].
  - rewrite <- (Nat.add_0_r (String.length (lexeme t))) at 2.
    rewrite tokenize_loop_shift.
    by rewrite tokenize_loop_spaced by (done || lia).
  - apply next_token_lexeme; [done | apply space_or_end_spaced | lia].
Qed.

Lemma tokenize_spaced ts :
  relexable ts → tokenize (spaced ts) = Some (inr ts).
Proof. intros Hts. by apply tokenize_loop_spaced. Qed.

Lemma relexable_produced ts :
  Forall (λ t, produced t = true) ts → relexable ts.
Proof. induction 1; simpl; auto. Qed.

Lemma relexable_end ts :
  Forall (λ t, produced t = true) ts → relexable (ts ++ [end_token]).
Proof. induction 1; simpl; auto. Qed.

(** What the loop of [tokenize] returns can be lexed again. *)
Lemma tokenize_loop_relexable fuel input pos tokens ts :
  tokenize_loop fuel input pos tokens = Some (inr ts) →
  Forall (λ t, produced t = true) tokens →
  relexable ts.
Proof.
  revert pos tokens. induction fuel as [|fuel IH]; intros pos tokens;
    rewrite tokenize_loop_eq; destruct (pos <? String.length input);
    try done; try (intros [= <-]; apply relexable_produced).
  destruct (next_token fuel input pos) as [[t pos']|] eqn:Hnext; [|done].
  destruct (decide _) as [|Hty]; [done|].
  intros Hloop Htokens.
  destruct (next_token_produced _ _ _ _ _ Hnext) as [Ht|[[-> Hend]|Ht]]; [| |done].
  - apply (IH _ _ Hloop). apply Forall_app. by split; [|apply Forall_singleton].
  - rewrite tokenize_loop_end in Hloop by done. simplify_eq.
    by apply relexable_end.
Qed.

(** C7, as the code has it.  The tokens [tokenize] returns are read back
    from their lexemes when white space keeps the lexemes apart: lexing
    the lexemes written with a space in front of each gives the same
    token sequence, and so does lexing the lexemes joined by single
    spaces, unless the sequence is the lone empty end token of an input
    of white space only (its lexeme is empty).  The lexeme of a string
    literal is its value between double quotes. *)
Theorem C7_relex_spaced_lexemes input ts :
  tokenize input = Some (inr ts) →
  tokenize (spaced ts) = Some (inr ts)
  ∧ (ts ≠ [mkToken END_STATEMENT ""] →
     tokenize (String.concat " " (map lexeme ts)) = Some (inr ts)).
Proof.
  intros Htok.
  assert (relexable ts) as Hts
    by (by apply (tokenize_loop_relexable _ _ _ _ _ Htok)).
  split; [by apply tokenize_spaced | by apply tokenize_joined].
Qed.

Lemma C7_relex_spaced_lexemes_witness :
  tokenize (spaced sample_tokens) = Some (inr sample_tokens)
  ∧ (sample_tokens ≠ [mkToken END_STATEMENT ""] →
     tokenize (String.concat " " (map lexeme sample_tokens))
     = Some (inr sample_tokens)).
Proof.
  apply (C7_relex_spaced_lexemes sample). vm_compute. reflexivity.
Defined.

(** C7 as stated fails: without white space between them the lexemes of
    two names run together. *)
Lemma C7_adjacent_names_counterexample :
  tokenize "a b" = Some (inr [mkToken VAR_NAME "a"; mkToken VAR_NAME "b"])
  ∧ String.concat "" (map lexeme [mkToken VAR_NAME "a"; mkToken VAR_NAME "b"]) = "ab"
  ∧ tokenize "ab" = Some (inr [mkToken VAR_NAME "ab"])
  ∧ tokenize (String.concat "" (map lexeme [mkToken VAR_NAME "a"; mkToken VAR_NAME "b"]))
    ≠ Some (inr [mkToken VAR_NAME "a"; mkToken VAR_NAME "b"]).
Proof.
  repeat split; try (vm_compute; reflexivity).
  vm_compute. discriminate.
Qed.

(** * A string literal that is not closed *)

(** A produced token is read back from its lexeme in front of any text
    that an identifier cannot run into. *)
Lemma next_token_lexeme_stops fuel t rest :
  produced t = true → stops isalnum rest = true →
  String.length (lexeme t) ≤ fuel →
  next_token fuel (lexeme t +:+ rest) 0 = Some (t, String.length (lexeme t)).
Proof.
  destruct t as [ty v]. unfold produced, lexeme. simpl.
  destruct ty; intros Hp Hrest Hfuel; try done;
    try (apply String.eqb_eq in Hp as ->).
  - apply next_token_out.
  - apply next_token_in.
  - apply next_token_gt.
  - apply next_token_lt.
  - rewrite length_app, length_app in *. simpl in *.
    rewrite !app_assoc_s.
    rewrite next_token_string by (done || lia).
    do 3 f_equal. lia.
  - apply andb_true_iff in Hp as [Hid Hkw%negb_true_iff].
    by apply next_token_identifier.
  - apply next_token_stop.
  - apply next_token_semicolon.
Qed.

Lemma stops_spaced_tail ts tail :
  stops isalnum tail = true → stops isalnum (spaced ts +:+ tail) = true.
Proof. by destruct ts. Qed.

(** The loop reads the spaced lexemes in front of [tail], one token a
    turn, and goes on with [tail]. *)
Lemma tokenize_loop_spaced_tail ts tail fuel tokens :
  Forall (λ t, produced t = true) ts → stops isalnum tail = true →
  String.length (spaced ts) ≤ fuel →
  tokenize_loop (length ts + fuel) (spaced ts +:+ tail) 0 tokens
  = tokenize_loop fuel tail 0 (tokens ++ ts).
Proof.
  intros Hts Htail. revert fuel tokens.
  induction Hts as [|t ts Ht Hts IH]; intros fuel tokens Hfuel.
  - by rewrite app_nil_r.
  - destruct (lexeme_head t (spaced ts +:+ tail) Ht) as (Hhead & Hlen & Hty).
    cbn [spaced length] in *. rewrite !length_app in Hfuel. simpl in Hfuel.
    rewrite Nat.add_succ_l, !app_assoc_s.
    rewrite (tokenize_loop_step _ _ _ _ t (1 + String.length (lexeme t)));
      [| rewrite !length_app; simpl; lia | | done].
    + rewrite <- app_assoc_s.
      replace (1 + String.length (lexeme t))
        with (String.length (" " +:+ lexeme t) + 0)
        by (rewrite length_app; simpl; lia).
      rewrite tokenize_loop_shift, IH by lia.
      by rewrite <- app_assoc.
    + rewrite (next_token_skip_run _ " " _ eq_refl Hhead) by (simpl; lia).
      rewrite next_token_lexeme_stops by (auto using stops_spaced_tail || lia).
      done.
Qed.

(** An identifier cannot run into white space or a double quote. *)
Lemma stops_space_quote ws body :
  string_forall isspace ws = true → stops isalnum (ws +:+ dq +:+ body) = true.
Proof.
  intros Hws. destruct ws as [|c ws]; [done|]. simpl in *.
  apply andb_true_iff in Hws as [Hc _].
  destruct (isalnum c) eqn:Hal; [|done].
  unfold isalnum in Hal. apply orb_true_iff in Hal as [Hal|Hal].
  - by rewrite (isalpha_not_space _ Hal) in Hc.
  - by rewrite (isspace_not_digit _ Hc) in Hal.
Qed.

(** An input that ends inside a string literal, after the spaced lexemes
    of produced tokens. *)
Lemma tokenize_spaced_unterminated ts ws body :
  Forall (λ t, produced t = true) ts →
  string_forall isspace ws = true →
  string_forall not_dquote body = true →
  tokenize (spaced ts +:+ ws +:+ dq +:+ body)
  = Some (inr (ts ++ [mkToken STRING_LITERAL body])).
Proof.
  intros Hts Hws Hbody.
  apply (tokenize_loop_tokenize
           (length ts + (String.length (spaced ts)
                         + S (S (String.length ws + String.length body))))).
  rewrite tokenize_loop_spaced_tail by (auto using stops_space_quote || lia).
  apply (tokenize_loop_unterminated _ EmptyString); [done | done | lia].
Qed.

(** The same after lexemes joined by single spaces. *)
Lemma tokenize_joined_unterminated t ts ws body :
  Forall (λ t, produced t = true) (t :: ts) →
  string_forall isspace ws = true →
  string_forall not_dquote body = true →
  tokenize (String.concat " " (map lexeme (t :: ts)) +:+ ws +:+ dq +:+ body)
  = Some (inr (t :: ts ++ [mkToken STRING_LITERAL body])).
Proof.
  intros [Ht Hts]%Forall_cons Hws Hbody.
  rewrite concat_lexemes, app_assoc_s.
  destruct (lexeme_head t (spaced ts +:+ ws +:+ dq +:+ body) Ht) as (_ & Hlen & Hty).
  pose proof (stops_space_quote ws body Hws) as Htail.
  apply (tokenize_loop_tokenize
           (S (length ts + (String.length (lexeme t) + String.length (spaced ts)
                            + S (S (String.length ws + String.length body)))))).
  rewrite (tokenize_loop_step _ _ _ _ t (String.length (lexeme t)));
    [| rewrite length_app; lia | | done].
  - pose proof (tokenize_loop_shift
                  (length ts + (String.length (lexeme t) + String.length (spaced ts)
                                + S (S (String.length ws + String.length body))))
                  (lexeme t) (spaced ts +:+ ws +:+ dq +:+ body) 0 ([] ++ [t]))
      as Hshift.
    rewrite Nat.add_0_r in Hshift. rewrite Hshift.
    rewrite tokenize_loop_spaced_tail by (done || lia).
    apply (tokenize_loop_unterminated _ EmptyString); [done | done | lia].
  - apply next_token_lexeme_stops; [done | by apply stops_spaced_tail | lia].
Qed.

(** C8.  [tokenize] terminates on every input: within one more turn of its
    loop than the input has characters it returns the tokens or throws.  In
    particular, when the loop stands (white space apart) on a double quote
    that is not closed, the scan for the closing quote runs to the end of
    the input and the loop ends with one more token, a [STRING_LITERAL]
    holding the text from just after the opening quote to the end.  So
    [tokenize] itself returns, for an input that is the lexemes of
    produced tokens (a space in front of each, or joined by single
    spaces), then white space, then a double quote and a text without a
    double quote, those tokens and last the [STRING_LITERAL] holding that
    text. *)
Theorem C8_tokenize_terminates :
  (∀ input, ∃ r, tokenize input = Some r)
  ∧ (∀ pre ws body tokens fuel,
       string_forall isspace ws = true →
       string_forall not_dquote body = true →
       S (S (String.length ws + String.length body)) ≤ fuel →
       tokenize_loop fuel (pre +:+ ws +:+ dq +:+ body) (String.length pre) tokens
       = Some (inr (tokens ++ [mkToken STRING_LITERAL body])))
  ∧ (∀ ts ws body,
       Forall (λ t, produced t = true) ts →
       string_forall isspace ws = true →
       string_forall not_dquote body = true →
       tokenize (spaced ts +:+ ws +:+ dq +:+ body)
       = Some (inr (ts ++ [mkToken STRING_LITERAL body])))
  ∧ (∀ t ts ws body,
       Forall (λ t, produced t = true) (t :: ts) →
       string_forall isspace ws = true →
       string_forall not_dquote body = true →
       tokenize (String.concat " " (map lexeme (t :: ts)) +:+ ws +:+ dq +:+ body)
       = Some (inr (t :: ts ++ [mkToken STRING_LITERAL body]))).
Proof.
  split; [apply tokenize_total|].
  split; [intros; by apply tokenize_loop_unterminated|].
  split; [apply tokenize_spaced_unterminated | apply tokenize_joined_unterminated].
Qed.

Lemma C8_tokenize_terminates_witness :
  tokenize ("out " +:+ dq +:+ "abc")
  = Some (inr [mkToken OUT "out"; mkToken STRING_LITERAL "abc"]).
Proof.
  refine (proj2 (proj2 (proj2 C8_tokenize_terminates))
            (mkToken OUT "out") [] " " "abc" _ _ _);
    [repeat constructor | reflexivity | reflexivity].
Defined.

(** * More about the lexer *)

Lemma relexable_lookup ts i t :
  relexable ts → ts !! i = Some t →
  produced t = true ∨ (t = end_token ∧ S i = length ts).
Proof.
  revert i. induction ts as [|t' ts IH]; intros i Hts Hi; [done|].
  destruct Hts as [[Ht Hts]|[-> ->]].
  - destruct i as [|i]; simpl in Hi; [simplify_eq; by left|].
    destruct (IH _ Hts Hi) as [?|[-> Hlen]]; [by left | right].
    split; [done | simpl; lia].
  - destruct i as [|i]; simpl in Hi; [simplify_eq; by right | done].
Qed.

(** X1.  Every token [tokenize] returns is one the rules of [next_token]
    build: a keyword or operator carrying its spelling, a [;], a string
    literal whose value holds no double quote, or a name that starts with
    a letter, goes on with letters and digits and does not start with
    [out], [in] or [stop].  The one exception is the empty
    [END_STATEMENT] for white space at the end of the input, which can
    only come last.  [UNKNOWN] and [INT_KEYWORD] never occur. *)
Theorem X1_tokens_well_shaped input ts i t :
  tokenize input = Some (inr ts) → ts !! i = Some t →
  produced t = true ∨ (t = end_token ∧ S i = length ts).
Proof.
  intros Htok. apply relexable_lookup.
  by apply (tokenize_loop_relexable _ _ _ _ _ Htok).
Qed.

Lemma X1_tokens_well_shaped_witness :
  produced end_token = true ∨ (end_token = end_token ∧ 2 = 2).
Proof.
  apply (X1_tokens_well_shaped "a " [mkToken VAR_NAME "a"; end_token] 1 end_token);
    reflexivity.
Defined.

Lemma next_token_progress fuel input pos t pos' :
  next_token fuel input pos = Some (t, pos') →
  pos < String.length input → pos < pos'.
Proof.
  intros Hnext Hpos.
  pose proof (next_token_mono _ (fuel `max` String.length input) _ _ _ _ Hnext
                ltac:(lia)) as Hmax.
  destruct (next_token_total (fuel `max` String.length input) input pos)
    as (t2 & p2 & Hnext2 & Hp2); [lia|].
  rewrite Hmax in Hnext2. simplify_eq. auto.
Qed.

Lemma tokenize_loop_count fuel input pos tokens ts :
  tokenize_loop fuel input pos tokens = Some (inr ts) →
  length ts + pos ≤ length tokens + pos `max` String.length input.
Proof.
  revert pos tokens. induction fuel as [|fuel IH]; intros pos tokens;
    rewrite tokenize_loop_eq;
    destruct (Nat.ltb_spec pos (String.length input)) as [Hlt|Hge];
    try done; try (intros [= <-]; lia).
  destruct (next_token fuel input pos) as [[t pos']|] eqn:Hnext; [|done].
  destruct (decide _); [done|].
  intros Hloop%IH. rewrite List.length_app in Hloop. simpl in Hloop.
  pose proof (next_token_progress _ _ _ _ _ Hnext Hlt). lia.
Qed.

(** X2.  [tokenize] returns at most one token per character of the
    input: every turn of its loop consumes at least one character. *)
Theorem X2_token_count input ts :
  tokenize input = Some (inr ts) → length ts ≤ String.length input.
Proof.
  intros Htok%tokenize_loop_count. simpl in Htok. lia.
Qed.

Lemma X2_token_count_witness :
  length [mkToken OUT "out"; mkToken VAR_NAME "x"] ≤ String.length "out x".
Proof.
  apply (X2_token_count "out x" [mkToken OUT "out"; mkToken VAR_NAME "x"]).
  reflexivity.
Defined.

Lemma next_token_unrecognized fuel s :
  unrecognized s = true →
  next_token fuel s 0 = Some (mkToken UNKNOWN "", 1).
Proof.
  destruct s as [|c s]; [done|]. unfold unrecognized.
  rewrite !andb_true_iff, !negb_true_iff.
  intros [[[[[Hsp Hal] Hdq] Hsc] Hgt] Hlt].
  assert (∀ k, String.prefix k (String c s) = false →
               (substr (String c s) 0 (String.length k) =? k)%string = false)
    as Hprefix.
  { intros k Hk. apply String.eqb_neq. intros Heq.
    apply String.prefix_correct in Heq. congruence. }
  assert (∀ a k, isalpha a = true → String.prefix (String a k) (String c s) = false)
    as Hletter.
  { intros a k Ha. simpl. destruct (ascii_dec a c) as [->|]; [congruence | done]. }
  pose proof (Hprefix "out" (Hletter "o"%char "ut" eq_refl)) as Hno_out.
  pose proof (Hprefix "in" (Hletter "i"%char "n" eq_refl)) as Hno_in.
  pose proof (Hprefix "stop" (Hletter "s"%char "top" eq_refl)) as Hno_stop.
  pose proof (Hprefix "int" (Hletter "i"%char "nt" eq_refl)) as Hno_int.
  pose proof (Hprefix ">>" Hgt) as Hno_gt.
  pose proof (Hprefix "<<" Hlt) as Hno_lt.
  simpl String.length in Hno_out, Hno_in, Hno_stop, Hno_int, Hno_gt, Hno_lt.
  unfold next_token, skip_whitespace.
  rewrite scan_while_halt by (simpl; by rewrite Hsp).
  change (Some ?x ≫= ?f) with (f x). cbv beta.
  rewrite Hno_out, Hno_in, Hno_stop, Hno_int, Hno_gt, Hno_lt.
  unfold char_at. simpl. by rewrite Hdq, Hal, Hsc.
Qed.

(** X3.  When the loop of [tokenize] stands, white space apart, on a text
    at the head of which no rule applies, [tokenize] throws
    [runtime_error("Unknown token encountered")] whatever follows; the
    tokens pushed so far are lost.  So a digit, a punctuation mark or a
    single [>] or [<] in token position makes the whole input fail. *)
Theorem X3_unrecognized_character fuel pre ws s tokens :
  string_forall isspace ws = true → unrecognized s = true →
  String.length ws ≤ fuel →
  tokenize_loop (S fuel) (pre +:+ ws +:+ s) (String.length pre) tokens
  = Some (inl (runtime_error "Unknown token encountered"))
  ∧ tokenize (ws +:+ s) = Some (inl (runtime_error "Unknown token encountered")).
Proof.
  intros Hws Hs Hfuel.
  assert (stops isspace s = true) as Hstop.
  { destruct s as [|c s]; [done|]. simpl in *.
    by destruct (isspace c). }
  assert (0 < String.length s) as Hlen by (destruct s; simpl in *; [done | lia]).
  assert (∀ f acc, String.length ws ≤ f →
            tokenize_loop (S f) (ws +:+ s) 0 acc
            = Some (inl (runtime_error "Unknown token encountered"))) as Hloop.
  { intros f acc Hf. rewrite tokenize_loop_eq, length_app.
    replace (0 <? String.length ws + String.length s) with true
      by (symmetry; apply Nat.ltb_lt; lia).
    rewrite next_token_skip_run, next_token_unrecognized by done. done. }
  split.
  - rewrite <- (Nat.add_0_r (String.length pre)), tokenize_loop_shift. by apply Hloop.
  - apply Hloop. rewrite length_app. lia.
Qed.

Lemma X3_unrecognized_character_witness :
  tokenize_loop 2 ("out" +:+ " " +:+ "7;") 3 [mkToken OUT "out"]
  = Some (inl (runtime_error "Unknown token encountered"))
  ∧ tokenize (" " +:+ "7;") = Some (inl (runtime_error "Unknown token encountered")).
Proof.
  apply (X3_unrecognized_character 1 "out" " " "7;" [mkToken OUT "out"]);
    [reflexivity | reflexivity | simpl; lia].
Defined.

Lemma next_token_tail fuel c s pos :
  next_token fuel (String c s) (S pos)
  = (λ '(t, r), (t, S r)) <$> next_token fuel s pos.
Proof. apply (next_token_shift fuel (String c EmptyString) s pos). Qed.

Lemma tokenize_loop_tail fuel c s pos tokens :
  tokenize_loop fuel (String c s) (S pos) tokens = tokenize_loop fuel s pos tokens.
Proof. apply (tokenize_loop_shift fuel (String c EmptyString) s pos tokens). Qed.

Lemma next_token_lead_space fuel c s t p :
  isspace c = true →
  next_token fuel s 0 = Some (t, p) →
  next_token (S fuel) (String c s) 0 = Some (t, S p).
Proof.
  intros Hc Hnext.
  destruct (scan_while isspace fuel s 0) as [r|] eqn:Hskip;
    [|by unfold next_token, skip_whitespace in Hnext; rewrite Hskip in Hnext].
  rewrite (next_token_after_skip _ _ _ _ Hskip) in Hnext.
  rewrite (next_token_after_skip (S fuel) (String c s) 0 (S r))
    by (by rewrite scan_while_cons, Hc, Hskip).
  rewrite next_token_tail.
  by rewrite (next_token_mono _ (S fuel) _ _ _ _ Hnext) by lia.
Qed.

Lemma tokenize_loop_lead_space fuel c s tokens :
  isspace c = true → s ≠ EmptyString → S (String.length s) ≤ fuel →
  tokenize_loop (S fuel) (String c s) 0 tokens = tokenize_loop fuel s 0 tokens.
Proof.
  intros Hc Hs Hfuel. destruct fuel as [|fuel]; [lia|].
  assert (0 < String.length s) as Hlen by (destruct s; simpl; [done | lia]).
  destruct (next_token_total fuel s 0) as (t & p & Hnext & Hp); [lia|].
  specialize (Hp Hlen).
  rewrite (tokenize_loop_eq (S (S fuel))), (tokenize_loop_eq (S fuel) s).
  rewrite (next_token_lead_space _ _ _ _ _ Hc Hnext), Hnext.
  rewrite (proj2 (Nat.ltb_lt _ _) Hlen).
  change (0 <? String.length (String c s)) with true. cbv beta iota.
  destruct (decide _); [done|].
  rewrite tokenize_loop_tail.
  destruct (tokenize_loop_total fuel s p (tokens ++ [t])) as [r Hr]; [lia|].
  rewrite Hr. apply (tokenize_loop_mono _ _ _ _ _ _ Hr). lia.
Qed.

Lemma tokenize_loop_lead_spaces fuel ws s tokens :
  string_forall isspace ws = true → s ≠ EmptyString →
  S (String.length s) ≤ fuel →
  tokenize_loop (String.length ws + fuel) (ws +:+ s) 0 tokens
  = tokenize_loop fuel s 0 tokens.
Proof.
  intros Hws Hs Hfuel. induction ws as [|c ws IH]; [done|].
  simpl in Hws. apply andb_true_iff in Hws as [Hc Hws].
  rewrite append_cons. simpl String.length. simpl Nat.add.
  rewrite tokenize_loop_lead_space; [by apply IH | done | |].
  - destruct ws; [done | by rewrite append_cons].
  - rewrite length_app. lia.
Qed.

(** X4.  White space in front of a text that is not empty does not change
    what [tokenize] returns, for a whole input and wherever the loop
    stands.  (In front of the end of the input it does: there it gives
    the empty [END_STATEMENT] token.) *)
Theorem X4_leading_white_space ws s :
  string_forall isspace ws = true → s ≠ EmptyString →
  tokenize (ws +:+ s) = tokenize s
  ∧ ∀ fuel pre tokens,
      S (String.length s) ≤ fuel →
      tokenize_loop (String.length ws + fuel) (pre +:+ ws +:+ s)
        (String.length pre) tokens
      = tokenize_loop fuel (pre +:+ s) (String.length pre) tokens.
Proof.
  intros Hws Hs. split.
  - unfold tokenize. rewrite length_app, <- Nat.add_succ_r.
    by apply tokenize_loop_lead_spaces.
  - intros fuel pre tokens Hfuel.
    rewrite <- (Nat.add_0_r (String.length pre)), !tokenize_loop_shift.
    by apply tokenize_loop_lead_spaces.
Qed.

Lemma X4_leading_white_space_witness :
  tokenize ("  " +:+ "out x") = tokenize "out x"
  ∧ ∀ fuel pre tokens,
      S (String.length "out x") ≤ fuel →
      tokenize_loop (String.length "  " + fuel) (pre +:+ "  " +:+ "out x")
        (String.length pre) tokens
      = tokenize_loop fuel (pre +:+ "out x") (String.length pre) tokens.
Proof.
  apply (X4_leading_white_space "  " "out x"); [reflexivity | discriminate].
Defined.

(** X5.  A string literal is taken verbatim.  When the loop of [tokenize]
    stands on a double quote, everything up to the next double quote,
    whatever it is (white space, keywords, semicolons, characters no rule
    knows), becomes the value of one [STRING_LITERAL] token, and lexing
    goes on after the closing quote.  There is no escape for a double
    quote inside a literal. *)
Theorem X5_string_literal_verbatim fuel pre body tail tokens :
  string_forall not_dquote body = true → String.length body ≤ fuel →
  tokenize_loop (S fuel) (pre +:+ dq +:+ body +:+ dq +:+ tail)
    (String.length pre) tokens
  = tokenize_loop fuel tail 0 (tokens ++ [mkToken STRING_LITERAL body]).
Proof.
  intros Hbody Hfuel.
  rewrite <- (Nat.add_0_r (String.length pre)), tokenize_loop_shift.
  rewrite (tokenize_loop_step _ _ _ _ (mkToken STRING_LITERAL body)
             (S (S (String.length body))));
    [| simpl; lia | by apply next_token_string | done].
  rewrite <- !app_assoc_s.
  replace (S (S (String.length body)))
    with (String.length ((dq +:+ body) +:+ dq) + 0)
    by (rewrite !length_app; simpl; lia).
  apply tokenize_loop_shift.
Qed.

Lemma X5_string_literal_verbatim_witness :
  tokenize_loop 9 ("out" +:+ dq +:+ "in 1; ?" +:+ dq +:+ ";") 3 [mkToken OUT "out"]
  = tokenize_loop 8 ";" 0 ([mkToken OUT "out"] ++ [mkToken STRING_LITERAL "in 1; ?"]).
Proof.
  apply (X5_string_literal_verbatim 8 "out" "in 1; ?" ";" [mkToken OUT "out"]);
    [reflexivity | simpl; lia].
Defined.

(** X6.  The lexer keeps no state but the position.  What the loop of
    [tokenize] does from a position depends only on the text from that
    position on: any text in front of it can be replaced by any other. *)
Theorem X6_lexing_depends_on_suffix fuel pre pre' input pos tokens :
  tokenize_loop fuel (pre +:+ input) (String.length pre + pos) tokens
  = tokenize_loop fuel (pre' +:+ input) (String.length pre' + pos) tokens.
Proof. by rewrite !tokenize_loop_shift. Qed.

(** * More about the parser *)

Lemma parse_out_loop_tail fuel t tokens idx targets :
  parse_out_loop fuel (t :: tokens) (S idx) targets
  = (λ '(ts, j), (ts, S j)) <$> parse_out_loop fuel tokens idx targets.
Proof.
  revert idx targets. induction fuel as [|fuel IH]; intros idx targets;
    rewrite (parse_out_loop_eq _ (t :: tokens)), (parse_out_loop_eq _ tokens);
    change ((t :: tokens) !! S idx) with (tokens !! idx);
    destruct (tokens !! idx) as [t'|]; try done;
    repeat case_match; try done; apply IH.
Qed.

Lemma parse_out_statement_tail fuel t tokens idx :
  parse_out_statement fuel (t :: tokens) (S idx)
  = (λ '(stmt, j), (stmt, S j)) <$> parse_out_statement fuel tokens idx.
Proof.
  unfold parse_out_statement. rewrite parse_out_loop_tail.
  destruct (parse_out_loop fuel tokens (S idx) []) as [[ts j]|]; [simpl|done].
  destruct (tokens !! j) as [t'|]; [|done]. by case_match.
Qed.

Lemma parse_in_statement_tail t tokens idx :
  parse_in_statement (t :: tokens) (S idx)
  = match parse_in_statement tokens idx with
    | inl e => inl e
    | inr (stmt, j) => inr (stmt, S j)
    end.
Proof.
  unfold parse_in_statement.
  change ((t :: tokens) !! S (S idx)) with (tokens !! S idx).
  change ((t :: tokens) !! S (S (S idx))) with (tokens !! S (S idx)).
  repeat case_match; done.
Qed.

Lemma parse_loop_tail fuel t tokens idx statements :
  parse_loop fuel (t :: tokens) (S idx) statements
  = parse_loop fuel tokens idx statements.
Proof.
  revert idx statements. induction fuel as [|fuel IH]; intros idx statements;
    rewrite (parse_loop_eq _ (t :: tokens)), (parse_loop_eq _ tokens);
    change ((t :: tokens) !! S idx) with (tokens !! idx);
    destruct (tokens !! idx) as [t'|]; try done.
  case_match.
  { rewrite parse_out_statement_tail.
    destruct (parse_out_statement fuel tokens idx) as [[stmt j]|]; [simpl|done].
    apply IH. }
  case_match; [|apply IH].
  rewrite parse_in_statement_tail.
  destruct (parse_in_statement tokens idx) as [e|[stmt j]]; [done | apply IH].
Qed.

(** The parser, like the lexer, reads relative to its cursor. *)
Lemma parse_loop_shift fuel pre tokens idx statements :
  parse_loop fuel (pre ++ tokens) (length pre + idx) statements
  = parse_loop fuel tokens idx statements.
Proof.
  induction pre as [|t pre IH]; [done|].
  simpl. by rewrite parse_loop_tail.
Qed.

Lemma parse_out_loop_mono fuel fuel' tokens idx targets r :
  parse_out_loop fuel tokens idx targets = Some r → fuel ≤ fuel' →
  parse_out_loop fuel' tokens idx targets = Some r.
Proof.
  revert fuel' idx targets. induction fuel as [|fuel IH];
    intros fuel' idx targets;
    rewrite (parse_out_loop_eq _ tokens idx), (parse_out_loop_eq fuel' tokens idx);
    destruct (tokens !! idx) as [t|]; try done;
    repeat case_match; try done; try lia;
    intros Hr Hle; apply IH; (done || lia).
Qed.

Lemma parse_out_statement_mono fuel fuel' tokens idx r :
  parse_out_statement fuel tokens idx = Some r → fuel ≤ fuel' →
  parse_out_statement fuel' tokens idx = Some r.
Proof.
  unfold parse_out_statement. intros Hr Hle.
  destruct (parse_out_loop fuel tokens (S idx) []) as [[ts j]|] eqn:Hloop; [|done].
  by rewrite (parse_out_loop_mono _ _ _ _ _ _ Hloop Hle).
Qed.

Lemma parse_loop_mono fuel fuel' tokens idx statements r :
  parse_loop fuel tokens idx statements = Some r → fuel ≤ fuel' →
  parse_loop fuel' tokens idx statements = Some r.
Proof.
  revert fuel' idx statements. induction fuel as [|fuel IH];
    intros fuel' idx statements;
    rewrite (parse_loop_eq _ tokens idx), (parse_loop_eq fuel' tokens idx);
    destruct (tokens !! idx) as [t|]; try done.
  intros Hr Hle. destruct fuel' as [|fuel']; [lia|].
  case_match.
  { destruct (parse_out_statement fuel tokens idx) as [[stmt j]|] eqn:Hout; [|done].
    rewrite (parse_out_statement_mono _ fuel' _ _ _ Hout) by lia.
    simpl in *. apply IH; [done | lia]. }
  case_match; [|apply IH; (done || lia)].
  destruct (parse_in_statement tokens idx) as [e|[stmt j]]; [done|].
  apply IH; [done | lia].
Qed.

(** The loop of [parse] ends, and [parse_in_statement] is the only place
    that throws. *)
Lemma parse_loop_total fuel tokens idx statements :
  S (length tokens - idx) ≤ fuel →
  ∃ r, parse_loop fuel tokens idx statements = Some r
       ∧ ∀ e, r = inl e → e = invalid_in.
Proof.
  revert idx statements. induction fuel as [|fuel IH];
    intros idx statements Hfuel; [lia|].
  rewrite parse_loop_eq.
  destruct (tokens !! idx) as [t|] eqn:Ht; [|by eexists].
  pose proof (lookup_lt_Some _ _ _ Ht) as Hlt.
  case_match.
  { destruct (parse_out_statement_spec fuel tokens idx) as (stmt & j & -> & Hj & _);
      [lia|].
    simpl. apply IH. lia. }
  case_match; [|apply IH; lia].
  destruct (parse_in_statement_inv tokens idx)
    as [->|(t1 & t2 & _ & _ & _ & _ & ->)].
  - eexists. split; [done|]. by intros e [= <-].
  - apply IH. lia.
Qed.

Lemma parse_total tokens :
  ∃ r, parse tokens = Some r ∧ ∀ e, r = inl e → e = invalid_in.
Proof. apply parse_loop_total. lia. Qed.

Lemma parse_loop_parse fuel tokens r :
  parse_loop fuel tokens 0 [] = Some r → parse tokens = Some r.
Proof.
  intros Hr. destruct (parse_total tokens) as (r' & Hr' & _).
  destruct (Nat.le_ge_cases fuel (S (length tokens))) as [Hle|Hle].
  - apply (parse_loop_mono _ _ _ _ _ _ Hr Hle).
  - unfold parse in Hr'. rewrite (parse_loop_mono _ _ _ _ _ _ Hr' Hle) in Hr.
    by simplify_eq.
Qed.

(** Statements pushed earlier stay in front of what the loop pushes. *)
Lemma parse_loop_app fuel tokens idx statements :
  parse_loop fuel tokens idx statements
  = sum_map id (app statements) <$> parse_loop fuel tokens idx [].
Proof.
  revert idx statements. induction fuel as [|fuel IH]; intros idx statements;
    rewrite (parse_loop_eq _ tokens idx statements), (parse_loop_eq _ tokens idx []);
    destruct (tokens !! idx) as [t|]; simpl;
    try done; try (by rewrite app_nil_r).
  assert (∀ stmt j,
            parse_loop fuel tokens j (statements ++ [stmt])
            = sum_map id (app statements) <$> parse_loop fuel tokens j [stmt])
    as Hstep.
  { intros stmt j. rewrite (IH j (statements ++ [stmt])), (IH j [stmt]).
    destruct (parse_loop fuel tokens j []) as [[e|ss]|]; simpl; try done.
    by rewrite <- app_assoc. }
  case_match.
  { destruct (parse_out_statement fuel tokens idx) as [[stmt j]|]; [simpl|done].
    apply Hstep. }
  case_match; [|apply IH].
  destruct (parse_in_statement tokens idx) as [e|[stmt j]]; [done | apply Hstep].
Qed.

Lemma parse_with_statement fuel tokens stmt r :
  S (length tokens) ≤ fuel →
  parse tokens = Some r →
  parse_loop fuel tokens 0 [stmt] = Some (with_statement stmt r).
Proof.
  intros Hfuel Hr. rewrite parse_loop_app.
  rewrite (parse_loop_mono _ fuel _ _ _ _ Hr Hfuel). by destruct r.
Qed.

Lemma parse_loop_head fuel t tokens statements :
  parse_loop (S fuel) (t :: tokens) 0 statements =
    if bool_decide (type t = OUT) then
      '(stmt, idx) ← parse_out_statement fuel (t :: tokens) 0;
      parse_loop fuel (t :: tokens) idx (statements ++ [stmt])
    else if bool_decide (type t = IN) then
      match parse_in_statement (t :: tokens) 0 with
      | inl e => Some (inl e)
      | inr (stmt, idx) => parse_loop fuel (t :: tokens) idx (statements ++ [stmt])
      end
    else parse_loop fuel tokens 0 statements.
Proof.
  rewrite parse_loop_eq. change ((t :: tokens) !! 0) with (Some t). cbv beta iota.
  repeat case_match; try done. apply parse_loop_tail.
Qed.

(** X7.  At the top level [parse] steps over every token that is neither
    [out] nor [in]: a stray operator, name, literal, [stop] or [;] in
    front of the rest changes nothing. *)
Theorem X7_parse_skips_stray_token t rest :
  starts_statement t = false → parse (t :: rest) = parse rest.
Proof.
  unfold starts_statement. intros [Hout Hin]%orb_false_iff.
  unfold parse. change (length (t :: rest)) with (S (length rest)).
  by rewrite parse_loop_head, Hout, Hin.
Qed.

Lemma X7_parse_skips_stray_token_witness :
  parse (mkToken END_STATEMENT ";" :: [mkToken OUT "out"; mkToken VAR_NAME "x"])
  = parse [mkToken OUT "out"; mkToken VAR_NAME "x"].
Proof.
  apply (X7_parse_skips_stray_token (mkToken END_STATEMENT ";")). reflexivity.
Defined.

Lemma parse_in_statement_head t0 t1 t2 rest :
  type t1 = LESS_THAN → type t2 = VAR_NAME →
  parse_in_statement (t0 :: t1 :: t2 :: rest) 0 = inr (InStatement (value t2), 3).
Proof.
  intros H1 H2. unfold parse_in_statement. simpl.
  by rewrite !bool_decide_eq_true_2.
Qed.

Lemma parse_in_loop fuel t0 t1 t2 rest r :
  type t0 = IN → type t1 = LESS_THAN → type t2 = VAR_NAME →
  S (length rest) ≤ fuel → parse rest = Some r →
  parse_loop (S fuel) (t0 :: t1 :: t2 :: rest) 0 []
  = Some (with_statement (InStatement (value t2)) r).
Proof.
  intros H0 H1 H2 Hfuel Hr. rewrite parse_loop_head.
  rewrite bool_decide_eq_false_2 by congruence.
  rewrite bool_decide_eq_true_2 by done.
  rewrite parse_in_statement_head by done.
  rewrite !parse_loop_tail. by apply parse_with_statement.
Qed.

(** X8.  An [in] token followed by [<<] and a name is one [InStatement]
    for that name, and the parse goes on after the name: the result is
    that statement in front of the statements of the rest, or the
    exception the rest throws. *)
Theorem X8_parse_in_statement t0 t1 t2 rest :
  type t0 = IN → type t1 = LESS_THAN → type t2 = VAR_NAME →
  parse (t0 :: t1 :: t2 :: rest)
  = with_statement (InStatement (value t2)) <$> parse rest.
Proof.
  intros H0 H1 H2. destruct (parse_total rest) as (r & Hr & _). rewrite Hr.
  apply (parse_loop_parse (S (S (length rest)))).
  by apply parse_in_loop.
Qed.

Lemma X8_parse_in_statement_witness :
  parse (mkToken IN "in" :: mkToken LESS_THAN "<<" :: mkToken VAR_NAME "a"
         :: [mkToken END_STATEMENT ";"])
  = with_statement (InStatement "a") <$> parse [mkToken END_STATEMENT ";"].
Proof.
  apply (X8_parse_in_statement (mkToken IN "in") (mkToken LESS_THAN "<<")
           (mkToken VAR_NAME "a")); reflexivity.
Defined.

Lemma parse_out_loop_run fuel run rest targets :
  Forall (λ t, out_operand t = true) run → ends_operands rest = true →
  length run ≤ fuel →
  parse_out_loop fuel (run ++ rest) 0 targets
  = Some (targets ++ out_targets run, length run).
Proof.
  intros Hrun Hrest. revert fuel targets.
  induction Hrun as [|t run Ht Hrun IH]; intros fuel targets Hfuel.
  - rewrite parse_out_loop_eq, app_nil_r. simpl.
    destruct rest as [|t rest]; [done|]. simpl in *.
    apply negb_true_iff in Hrest. unfold out_operand in Hrest.
    apply orb_false_iff in Hrest as [[Hgt Hstr]%orb_false_iff Hvar].
    by rewrite Hgt, Hstr, Hvar.
  - destruct fuel as [|fuel]; [simpl in Hfuel; lia|].
    rewrite parse_out_loop_eq. simpl in Hfuel.
    change (((t :: run) ++ rest) !! 0) with (Some t). cbv beta iota.
    change ((t :: run) ++ rest) with (t :: (run ++ rest)).
    unfold out_targets.
    case_bool_decide as Hgt.
    + rewrite parse_out_loop_tail, IH by lia. simpl.
      by rewrite filter_cons_False by (by intros ?).
    + unfold out_operand in Ht. rewrite (bool_decide_eq_false_2 _ Hgt) in Ht.
      simpl in Ht. rewrite Ht.
      rewrite parse_out_loop_tail, IH by lia. simpl.
      rewrite filter_cons_True by done. simpl.
      by rewrite <- app_assoc.
Qed.

Lemma parse_out_loop_head fuel t0 run rest r :
  type t0 = OUT →
  Forall (λ t, out_operand t = true) run → ends_operands rest = true →
  S (length run + length rest) ≤ fuel → parse (skip_stop rest) = Some r →
  parse_loop (S fuel) (t0 :: run ++ rest) 0 []
  = Some (with_statement (OutStatement (out_targets run)) r).
Proof.
  intros H0 Hrun Hrest Hfuel Hr.
  assert (length (skip_stop rest) ≤ length rest) as Hskip.
  { destruct rest as [|t rest]; [done|]. simpl. case_match; simpl; lia. }
  rewrite parse_loop_head, bool_decide_eq_true_2 by done.
  unfold parse_out_statement.
  rewrite parse_out_loop_tail, parse_out_loop_run by (done || lia).
  change (?f <$> Some ?x) with (Some (f x)). cbv beta iota.
  change (Some ?x ≫= ?f) with (f x). cbv beta iota.
  change ((t0 :: run ++ rest) !! S (length run)) with ((run ++ rest) !! length run).
  rewrite lookup_app_r, Nat.sub_diag by done.
  destruct rest as [|t rest].
  - simpl. rewrite parse_loop_tail.
    rewrite <- (Nat.add_0_r (length run)), parse_loop_shift.
    apply parse_with_statement; [simpl; lia | done].
  - simpl in Hr, Hskip, Hfuel |- *.
    case_bool_decide as Hstop; simpl; rewrite parse_loop_tail.
    + replace (S (length run)) with (length (run ++ [t]) + 0)
        by (rewrite List.length_app; simpl; lia).
      rewrite (cons_middle t run rest), app_assoc, parse_loop_shift.
      apply parse_with_statement; [lia | done].
    + rewrite <- (Nat.add_0_r (length run)), parse_loop_shift.
      apply parse_with_statement; [simpl; lia | done].
Qed.

(** X9.  An [out] token takes as its targets the values of the string
    literals and names that follow it, in order, up to the first token
    that is none of [>>], string literal, name; the [>>] between them are
    optional and carry nothing.  A [stop] right after the operands is
    consumed with the statement.  The result is the [OutStatement] (with
    no targets when no operand follows) in front of the statements of
    what is left, or the exception that throws. *)
Theorem X9_parse_out_statement t0 run rest :
  type t0 = OUT →
  Forall (λ t, out_operand t = true) run → ends_operands rest = true →
  parse (t0 :: run ++ rest)
  = with_statement (OutStatement (out_targets run)) <$> parse (skip_stop rest).
Proof.
  intros H0 Hrun Hrest.
  destruct (parse_total (skip_stop rest)) as (r & Hr & _). rewrite Hr.
  apply (parse_loop_parse (S (S (length run + length rest)))).
  by apply parse_out_loop_head.
Qed.

Lemma X9_parse_out_statement_witness :
  parse (mkToken OUT "out"
         :: [mkToken VAR_NAME "a"; mkToken GREATER_THAN ">>"; mkToken STRING_LITERAL "b"]
         ++ [mkToken STOP "stop"; mkToken VAR_NAME "c"])
  = with_statement
      (OutStatement
         (out_targets [mkToken VAR_NAME "a"; mkToken GREATER_THAN ">>";
                       mkToken STRING_LITERAL "b"]))
    <$> parse (skip_stop [mkToken STOP "stop"; mkToken VAR_NAME "c"]).
Proof.
  apply (X9_parse_out_statement (mkToken OUT "out")); [reflexivity | | reflexivity].
  repeat constructor.
Defined.

(** X10.  [parse] returns on every token sequence: a turn more of its
    loop than there are tokens is enough.  The only exception it throws
    is [runtime_error("Invalid 'in' statement")]. *)
Theorem X10_parse_terminates tokens :
  ∃ r, parse tokens = Some r
       ∧ ∀ e, r = inl e → e = runtime_error "Invalid 'in' statement".
Proof. apply parse_total. Qed.

Lemma parse_in_statement_ok tokens idx :
  followed_by_redirect_and_name tokens idx = true →
  ∃ x, parse_in_statement tokens idx = inr (InStatement x, S (S (S idx))).
Proof.
  unfold followed_by_redirect_and_name, parse_in_statement.
  destruct (tokens !! S idx) as [t1|]; [|done].
  destruct (tokens !! S (S idx)) as [t2|]; [|done].
  intros [-> ->]%andb_true_iff. by eexists.
Qed.

Lemma parse_loop_ok fuel tokens idx statements :
  (∀ i t, tokens !! i = Some t → type t = IN →
          followed_by_redirect_and_name tokens i = true) →
  S (length tokens - idx) ≤ fuel →
  ∃ statements', parse_loop fuel tokens idx statements = Some (inr statements').
Proof.
  intros Hin. revert idx statements. induction fuel as [|fuel IH];
    intros idx statements Hfuel; [lia|].
  rewrite parse_loop_eq.
  destruct (tokens !! idx) as [t|] eqn:Ht; [|by eexists].
  pose proof (lookup_lt_Some _ _ _ Ht) as Hlt.
  case_bool_decide as Hout.
  { destruct (parse_out_statement_spec fuel tokens idx) as (stmt & j & -> & Hj & _);
      [lia|].
    simpl. apply IH. lia. }
  case_bool_decide as Hty; [|apply IH; lia].
  destruct (parse_in_statement_ok tokens idx (Hin _ _ Ht Hty)) as [x ->].
  apply IH. lia.
Qed.

(** X11.  [parse] returns statements exactly when every [in] token of the
    sequence is followed by [<<] and then a name; nothing else in a token
    sequence can make it fail. *)
Theorem X11_parse_succeeds_iff tokens :
  (∃ statements, parse tokens = Some (inr statements))
  ↔ ∀ i t, tokens !! i = Some t → type t = IN →
           followed_by_redirect_and_name tokens i = true.
Proof.
  split.
  - intros [statements Hparse] i t Hi Hty.
    destruct (followed_by_redirect_and_name tokens i) eqn:Hbad; [done|].
    unfold parse in Hparse.
    rewrite (parse_loop_in_error _ _ _ _ i t) in Hparse; (done || lia).
  - intros Hin. apply parse_loop_ok; [done | lia].
Qed.

Lemma parse_out_loop_operands fuel tokens idx targets ts j :
  parse_out_loop fuel tokens idx targets = Some (ts, j) →
  idx ≤ j
  ∧ ∀ k t, idx ≤ k < j → tokens !! k = Some t → starts_statement t = false.
Proof.
  revert idx targets. induction fuel as [|fuel IH]; intros idx targets;
    rewrite parse_out_loop_eq;
    destruct (tokens !! idx) as [t|] eqn:Ht;
    repeat case_match; try done;
    try (intros [= <- <-]; split; [done | intros; lia]).
  all: intros [Hj Hskip]%IH; split; [lia|];
    intros k t' Hk Hk';
    destruct (decide (k = idx)) as [->|]; [|apply (Hskip k); [lia | done]];
    simplify_eq; unfold starts_statement;
    repeat case_bool_decide; simpl in *; congruence.
Qed.

Lemma parse_out_statement_skips fuel tokens idx stmt j :
  parse_out_statement fuel tokens idx = Some (stmt, j) →
  idx < j
  ∧ ∀ k t, idx < k < j → tokens !! k = Some t → starts_statement t = false.
Proof.
  unfold parse_out_statement.
  destruct (parse_out_loop fuel tokens (S idx) []) as [[ts j']|] eqn:Hloop; [|done].
  destruct (parse_out_loop_operands _ _ _ _ _ _ Hloop) as [Hj Hskip]. simpl.
  destruct (tokens !! j') as [t|] eqn:Ht; [case_bool_decide as Hstop|];
    intros [= <- <-]; (split; [lia|]);
    try (intros k t' Hk Hk'; apply (Hskip k); [lia | done]).
  intros k t' Hk Hk'. destruct (decide (k = j')) as [->|].
  - simplify_eq. unfold starts_statement.
    repeat case_bool_decide; simpl; congruence.
  - apply (Hskip k); [lia | done].
Qed.

Lemma filter_drop_skip (tokens : list Token) idx j :
  idx ≤ j →
  (∀ k t, idx ≤ k < j → tokens !! k = Some t → starts_statement t = false) →
  filter (λ t, starts_statement t = true) (drop idx tokens)
  = filter (λ t, starts_statement t = true) (drop j tokens).
Proof.
  intros Hle. induction Hle as [|j Hle IH]; intros Hskip; [done|].
  rewrite IH by (intros k t Hk; apply Hskip; lia).
  destruct (tokens !! j) as [t|] eqn:Ht.
  - rewrite (drop_S _ _ _ Ht).
    rewrite filter_cons_False; [done|].
    rewrite (Hskip j t); [done | lia | done].
  - apply lookup_ge_None in Ht. by rewrite !drop_ge by lia.
Qed.

Lemma parse_loop_count fuel tokens idx statements statements' :
  parse_loop fuel tokens idx statements = Some (inr statements') →
  length statements'
  = length statements
    + length (filter (λ t, starts_statement t = true) (drop idx tokens)).
Proof.
  revert idx statements. induction fuel as [|fuel IH]; intros idx statements;
    rewrite parse_loop_eq; destruct (tokens !! idx) as [t|] eqn:Ht; try done;
    try (apply lookup_ge_None in Ht; rewrite drop_ge by lia;
         intros [= <-]; simpl; lia).
  rewrite (drop_S _ _ _ Ht).
  case_bool_decide as Hout.
  { destruct (parse_out_statement fuel tokens idx) as [[stmt j]|] eqn:Hstmt; [|done].
    destruct (parse_out_statement_skips _ _ _ _ _ Hstmt) as [Hj Hskip].
    simpl. intros ->%IH.
    rewrite filter_cons_True
      by (unfold starts_statement; by rewrite bool_decide_eq_true_2).
    rewrite (filter_drop_skip tokens (S idx) j)
      by (lia || (intros k t' Hk; apply Hskip; lia)).
    rewrite List.length_app. simpl. lia. }
  case_bool_decide as Hin.
  { destruct (parse_in_statement_inv tokens idx)
      as [->|(t1 & t2 & H1 & Hty1 & H2 & Hty2 & ->)]; [done|].
    intros ->%IH.
    rewrite filter_cons_True
      by (unfold starts_statement; rewrite (bool_decide_eq_true_2 (type t = IN));
          [apply orb_true_r | done]).
    rewrite (filter_drop_skip tokens (S idx) (S (S (S idx)))).
    - rewrite List.length_app. simpl. lia.
    - lia.
    - intros k t' Hk Hk'. unfold starts_statement.
      destruct (decide (k = S idx)) as [->|];
        [|replace k with (S (S idx)) in * by lia];
        simplify_eq; repeat case_bool_decide; simpl; congruence. }
  intros ->%IH.
  rewrite filter_cons_False; [done|].
  unfold starts_statement.
  by rewrite (bool_decide_eq_false_2 _ Hout), (bool_decide_eq_false_2 _ Hin).
Qed.

(** X12.  When [parse] succeeds it returns exactly one statement per
    [out] or [in] token of the sequence: no such token is ever taken as
    an operand of another statement, and nothing else makes a
    statement. *)
Theorem X12_one_statement_per_keyword tokens statements :
  parse tokens = Some (inr statements) →
  length statements
  = length (filter (λ t, starts_statement t = true) tokens).
Proof. intros Hparse%parse_loop_count. by rewrite Hparse. Qed.

Lemma X12_one_statement_per_keyword_witness :
  length sample_program
  = length (filter (λ t, starts_statement t = true) sample_tokens).
Proof.
  apply (X12_one_statement_per_keyword sample_tokens sample_program).
  vm_compute. reflexivity.
Defined.

(** * More about the executor *)

Lemma stoi_cases line :
  (∃ n, stoi line = inr n ∧ (INT_MIN ≤ n ≤ INT_MAX)%Z)
  ∨ stoi line = inl (invalid_argument "stoi")
  ∨ stoi line = inl (out_of_range "stoi").
Proof.
  unfold stoi. destruct (strip_sign (skip_spaces line)) as [negative s].
  destruct (isdigit (char_at s 0)); [|by right; left].
  destruct (_ && _)%Z eqn:Hrange; [|by right; right].
  left. eexists. split; [done|]. lia.
Qed.

(** What [InStatement::execute] does, by the outcome of [std::stoi]. *)
Lemma InStatement_execute_cases var_name variables io :
  let line := (getline io).1 in
  let io' := (getline io).2 in
  (∃ n, stoi line = inr n ∧ (INT_MIN ≤ n ≤ INT_MAX)%Z
        ∧ InStatement_execute var_name variables io
          = inr (<[var_name := to_string n]> variables, io'))
  ∨ (stoi line = inl (invalid_argument "stoi")
     ∧ InStatement_execute var_name variables io
       = inr (<[var_name := "0"]> variables, put_cerr diagnostic io'))
  ∨ (stoi line = inl (out_of_range "stoi")
     ∧ InStatement_execute var_name variables io = inl (out_of_range "stoi")).
Proof.
  unfold InStatement_execute. destruct (getline io) as [line io']. simpl.
  destruct (stoi_cases line) as [(n & Hn & Hrange)|[Hn|Hn]]; rewrite Hn.
  - left. by exists n.
  - right. by left.
  - right. by right.
Qed.

Lemma getline_spec io :
  (getline io).1 = default EmptyString (head (cin io))
  ∧ cin (getline io).2 = drop 1 (cin io)
  ∧ cout (getline io).2 = cout io
  ∧ cerr (getline io).2 = cerr io.
Proof. unfold getline. by destruct io as [[|line rest] o e]. Qed.

Lemma execute_all_aborts_iff statements variables io :
  (∃ e, execute_all statements variables io = inl e)
  ↔ Exists (λ line, stoi line = inl (out_of_range "stoi"))
      (take (lines_read statements) (cin io)).
Proof.
  revert variables io.
  induction statements as [|[targets|var_name] statements IH];
    intros variables io; simpl.
  - rewrite take_0, Exists_nil. split; [by intros [? ?] | done].
  - rewrite OutStatement_execute_spec, IH. done.
  - destruct (getline_spec io) as (Hline & Hcin & _).
    destruct (InStatement_execute_cases var_name variables io)
      as [(n & Hn & _ & ->)|[[Hn ->]|[Hn ->]]]; rewrite Hline in Hn.
    + rewrite IH, Hcin. destruct (cin io) as [|line rest]; simpl in *.
      * by rewrite take_nil.
      * rewrite drop_0, Exists_cons. split; [auto|].
        intros [Hbad|?]; [congruence | done].
    + rewrite IH. simpl. rewrite Hcin.
      destruct (cin io) as [|line rest]; simpl in *.
      * by rewrite take_nil.
      * rewrite drop_0, Exists_cons. split; [auto|].
        intros [Hbad|?]; [congruence | done].
    + split; [|by eexists]. intros _.
      destruct (cin io) as [|line rest]; simpl in *; [done|].
      by apply Exists_cons_hd.
Qed.

Lemma execute_all_exception statements variables io e :
  execute_all statements variables io = inl e → e = out_of_range "stoi".
Proof.
  revert variables io.
  induction statements as [|[targets|var_name] statements IH];
    intros variables io; simpl; [done | |].
  - rewrite OutStatement_execute_spec. apply IH.
  - destruct (InStatement_execute_cases var_name variables io)
      as [(n & _ & _ & ->)|[[_ ->]|[_ ->]]]; [apply IH | apply IH |].
    by intros [= <-].
Qed.

(** X13.  A run is cut short exactly when one of the lines it reads, the
    first [lines_read statements] lines of standard input, holds a number
    that does not fit in an [int]; the exception is then
    [std::out_of_range] from [std::stoi].  Lines after those, and lines
    that hold no number at all, never make a run fail. *)
Theorem X13_run_aborts_iff_overflow statements variables io :
  ((∃ e, execute_all statements variables io = inl e)
   ↔ Exists (λ line, stoi line = inl (out_of_range "stoi"))
       (take (lines_read statements) (cin io)))
  ∧ ∀ e, execute_all statements variables io = inl e → e = out_of_range "stoi".
Proof.
  split; [apply execute_all_aborts_iff | apply execute_all_exception].
Qed.

Lemma X13_run_aborts_iff_overflow_witness :
  execute_all [OutStatement ["x"]; InStatement "a"] ∅
    (mkStreams ["99999999999"; "1"] [] [])
  = inl (out_of_range "stoi")
  ∧ out_of_range "stoi" = out_of_range "stoi".
Proof.
  split; [reflexivity|].
  apply (proj2 (X13_run_aborts_iff_overflow
                  [OutStatement ["x"]; InStatement "a"] ∅
                  (mkStreams ["99999999999"; "1"] [] []))).
  reflexivity.
Defined.

Lemma execute_all_streams statements variables io variables' io' :
  execute_all statements variables io = inr (variables', io') →
  cin io' = drop (lines_read statements) (cin io)
  ∧ (∃ written, cout io' = cout io ++ written
                ∧ length written = lines_written statements)
  ∧ (∃ reported, cerr io' = cerr io ++ reported
                 ∧ length reported ≤ lines_read statements
                 ∧ Forall (λ line, line = diagnostic) reported).
Proof.
  revert variables io.
  induction statements as [|[targets|var_name] statements IH];
    intros variables io; simpl.
  - intros [= <- <-]. rewrite drop_0. split; [done|].
    split; exists []; by rewrite app_nil_r.
  - rewrite OutStatement_execute_spec.
    intros (Hcin & (written & Hout & Hlen) & Herr)%IH. simpl in *.
    split; [done|]. split; [|done].
    eexists. rewrite Hout, <- app_assoc. split; [done|].
    rewrite List.length_app, length_map. lia.
  - destruct (getline_spec io) as (_ & Hcin & Hcout & Hcerr).
    destruct (InStatement_execute_cases var_name variables io)
      as [(n & _ & _ & ->)|[[_ ->]|[_ ->]]]; [| |done].
    + intros (Hin & Hout & (reported & Herr & Hlen & Hall))%IH.
      rewrite Hcin, drop_drop in Hin. rewrite Hcout in Hout. rewrite Hcerr in Herr.
      split; [done|]. split; [done|].
      exists reported. split; [done|]. split; [lia | done].
    + intros (Hin & Hout & (reported & Herr & Hlen & Hall))%IH. simpl in *.
      rewrite Hcin, drop_drop in Hin. rewrite Hcout in Hout.
      rewrite Hcerr, <- app_assoc in Herr.
      split; [done|]. split; [done|].
      eexists. split; [done|]. simpl. split; [lia|]. by constructor.
Qed.

Lemma string_of_uint_one_line d :
  one_line (NilEmpty.string_of_uint d) = true.
Proof. induction d; done. Qed.

(** [std::to_string] writes no newline. *)
Lemma to_string_one_line n : one_line (to_string n) = true.
Proof.
  assert (∀ d, one_line (NilZero.string_of_uint d) = true) as Huint
    by (intros []; try done; apply string_of_uint_one_line).
  unfold to_string, NilZero.string_of_int.
  destruct (Z.to_int n) as [d|d]; exact (Huint d).
Qed.

(** When no target and no value holds a newline, no write of a run does. *)
Lemma execute_all_one_line statements variables io variables' io' :
  execute_all statements variables io = inr (variables', io') →
  Forall (λ t, one_line t = true) (targets_of statements) →
  map_Forall (λ _ v, one_line v = true) variables →
  ∃ written, cout io' = cout io ++ written
             ∧ Forall (λ s, one_line s = true) written.
Proof.
  revert variables io.
  induction statements as [|[targets|var_name] statements IH];
    intros variables io; simpl.
  - intros [= <- <-] _ _. exists []. by rewrite app_nil_r.
  - rewrite OutStatement_execute_spec.
    intros Hrun [Htargets Hrest]%Forall_app Hvars.
    destruct (IH _ _ Hrun Hrest Hvars) as (written & Hout & Hlines).
    simpl in Hout. eexists. rewrite Hout, <- app_assoc. split; [done|].
    apply Forall_app. split; [|done].
    apply Forall_fmap. eapply Forall_impl; [exact Htargets|].
    intros target Htarget. simpl.
    destruct (variables !! target) as [v|] eqn:Hv; [|done].
    apply (Hvars _ _ Hv).
  - destruct (getline_spec io) as (_ & _ & Hcout & _).
    destruct (InStatement_execute_cases var_name variables io)
      as [(n & _ & _ & ->)|[[_ ->]|[_ ->]]]; [| |done];
      intros Hrun Htargets Hvars.
    + rewrite <- Hcout. apply (IH _ _ Hrun Htargets).
      apply map_Forall_insert_2; [apply to_string_one_line | done].
    + rewrite <- Hcout.
      apply (IH _ (put_cerr diagnostic (getline io).2) Hrun Htargets).
      by apply map_Forall_insert_2.
Qed.

(** X14.  A run that completes has read exactly one line of standard
    input per [InStatement] (none once the input is used up), has made
    exactly one write, of a text and a newline, to standard output per
    target of its [OutStatement]s, and has appended to standard error
    nothing but diagnostic lines, at most one per [InStatement].  What
    the streams held before is kept in front.  The writes to standard
    output are exactly that many lines of output when no target and no
    value of the variables at the start holds a newline. *)
Theorem X14_stream_accounting statements variables io variables' io' :
  execute_all statements variables io = inr (variables', io') →
  cin io' = drop (lines_read statements) (cin io)
  ∧ (∃ written, cout io' = cout io ++ written
                ∧ length written = lines_written statements
                ∧ stream_text (cout io')
                  = stream_text (cout io) +:+ stream_text written
                ∧ (Forall (λ t, one_line t = true) (targets_of statements) →
                   map_Forall (λ _ v, one_line v = true) variables →
                   text_lines (stream_text written) = written))
  ∧ (∃ reported, cerr io' = cerr io ++ reported
                 ∧ length reported ≤ lines_read statements
                 ∧ Forall (λ line, line = "Invalid input. Please enter an integer.")
                     reported
                 ∧ text_lines (stream_text reported) = reported).
Proof.
  intros Hrun.
  destruct (execute_all_streams _ _ _ _ _ Hrun)
    as (Hcin & (written & Hout & Hlen) & (reported & Herr & Hcount & Hall)).
  split; [done|]. split.
  - exists written. split; [done|]. split; [done|].
    split; [by rewrite Hout, stream_text_app|].
    intros Htargets Hvars.
    destruct (execute_all_one_line _ _ _ _ _ Hrun Htargets Hvars)
      as (written' & Hout' & Hlines).
    rewrite Hout in Hout'. apply app_inv_head in Hout' as <-.
    by apply text_lines_stream.
  - exists reported. split; [done|]. split; [done|]. split; [done|].
    apply text_lines_stream. eapply Forall_impl; [exact Hall|].
    by intros line ->.
Qed.

Lemma X14_stream_accounting_witness :
  cin (mkStreams ["8"] ["hi"; "0"] [diagnostic])
  = drop (lines_read sample_program) (cin (mkStreams ["abc"; "8"] [] []))
  ∧ (∃ written, cout (mkStreams ["8"] ["hi"; "0"] [diagnostic])
                = cout (mkStreams ["abc"; "8"] [] []) ++ written
                ∧ length written = lines_written sample_program
                ∧ stream_text (cout (mkStreams ["8"] ["hi"; "0"] [diagnostic]))
                  = stream_text (cout (mkStreams ["abc"; "8"] [] []))
                    +:+ stream_text written
                ∧ (Forall (λ t, one_line t = true) (targets_of sample_program) →
                   map_Forall (λ _ v, one_line v = true) (∅ : gmap string string) →
                   text_lines (stream_text written) = written))
  ∧ (∃ reported, cerr (mkStreams ["8"] ["hi"; "0"] [diagnostic])
                 = cerr (mkStreams ["abc"; "8"] [] []) ++ reported
                 ∧ length reported ≤ lines_read sample_program
                 ∧ Forall (λ line, line = "Invalid input. Please enter an integer.")
                     reported
                 ∧ text_lines (stream_text reported) = reported).
Proof.
  apply (X14_stream_accounting sample_program ∅ (mkStreams ["abc"; "8"] [] [])
           (<["a" := "0"]> ∅)).
  reflexivity.
Defined.

Lemma execute_all_variables statements variables io variables' io' :
  execute_all statements variables io = inr (variables', io') →
  dom variables' = dom variables ∪ assigned statements
  ∧ (∀ key, key ∉ assigned statements → variables' !! key = variables !! key)
  ∧ (map_Forall (λ _ v, canonical v) variables →
     map_Forall (λ _ v, canonical v) variables').
Proof.
  assert (canonical "0") as Hzero by (exists 0%Z; by split).
  revert variables io.
  induction statements as [|[targets|var_name] statements IH];
    intros variables io; simpl.
  - intros [= <- <-]. split; [by rewrite (right_id_L ∅ (∪)) | done].
  - rewrite OutStatement_execute_spec. apply IH.
  - destruct (InStatement_execute_cases var_name variables io)
      as [(n & _ & Hrange & ->)|[[_ ->]|[_ ->]]]; [| |done];
      intros (Hdom & Hframe & Hcanon)%IH;
      (split; [rewrite Hdom, dom_insert_L; by rewrite (assoc_L (∪)), (comm_L (∪) _ {[var_name]})|]);
      (split;
       [intros key [Hkey Hrest]%not_elem_of_union; rewrite Hframe by done;
        apply lookup_insert_ne; by intros ->; apply Hkey, elem_of_singleton|]);
      intros Hall; apply Hcanon, map_Forall_insert_2; try done.
    by exists n.
Qed.

(** X15.  A run that completes leaves defined exactly the variables that
    were defined before and those its [InStatement]s name: no variable is
    ever removed, [OutStatement]s define none, and a variable no
    [InStatement] names keeps its value. *)
Theorem X15_variables_defined statements variables io variables' io' :
  execute_all statements variables io = inr (variables', io') →
  dom variables' = dom variables ∪ assigned statements
  ∧ ∀ key, key ∉ assigned statements → variables' !! key = variables !! key.
Proof.
  intros (Hdom & Hframe & _)%execute_all_variables. by split.
Qed.

Lemma X15_variables_defined_witness :
  dom (<["a" := "0"]> (∅ : gmap string string)) = dom (∅ : gmap string string) ∪ assigned sample_program
  ∧ ∀ key, key ∉ assigned sample_program →
           <["a" := "0"]> (∅ : gmap string string) !! key = (∅ : gmap string string) !! key.
Proof.
  apply (X15_variables_defined sample_program ∅ (mkStreams ["abc"] [] [])
           (<["a" := "0"]> ∅) (mkStreams [] ["hi"; "0"] [diagnostic])).
  reflexivity.
Defined.

(** X16.  Every value a run stores is the decimal text [std::to_string]
    prints for some [int]: the number read, or ["0"] after a line without
    a number.  If the map held only such texts before, as the empty map
    of [Interpreter::execute] does, it holds only such texts after. *)
Theorem X16_values_canonical statements variables io variables' io' :
  execute_all statements variables io = inr (variables', io') →
  map_Forall (λ _ v, canonical v) variables →
  map_Forall (λ _ v, canonical v) variables'.
Proof.
  intros (_ & _ & Hcanon)%execute_all_variables. done.
Qed.

Lemma X16_values_canonical_witness :
  map_Forall (λ _ v, canonical v) (<["a" := "-7"]> (∅ : gmap string string)).
Proof.
  apply (X16_values_canonical [InStatement "a"] ∅ (mkStreams [" -007x"] [] [])
           (<["a" := "-7"]> ∅) (mkStreams [] [] [])).
  - reflexivity.
  - apply map_Forall_empty.
Defined.

(** X17.  What [in << v] stores is what [out >> v] prints: after an
    [InStatement] for [v] has run, an [OutStatement] with the target [v]
    writes the stored text, never the name [v], and no other variable has
    changed. *)
Theorem X17_in_then_out var_name variables io variables' io' :
  execute_all [InStatement var_name; OutStatement [var_name]] variables io
  = inr (variables', io') →
  ∃ v, variables' !! var_name = Some v
       ∧ canonical v
       ∧ cout io' = cout io ++ [v]
       ∧ ∀ key, key ≠ var_name → variables' !! key = variables !! key.
Proof.
  cbn [execute_all execute]. destruct (getline_spec io) as (_ & _ & Hcout & _).
  destruct (InStatement_execute_cases var_name variables io)
    as [(n & _ & Hrange & ->)|[[_ ->]|[_ ->]]]; [| |done];
    cbv beta iota; rewrite OutStatement_execute_spec; simpl;
    rewrite lookup_insert_eq; intros [= <- <-]; simpl; rewrite Hcout;
    eexists; (split; [apply lookup_insert_eq|]);
    (split; [|split; [done | intros key Hkey; by apply lookup_insert_ne]]).
  - by exists n.
  - exists 0%Z. by split.
Qed.

Lemma X17_in_then_out_witness :
  ∃ v, <["a" := "42"]> (∅ : gmap string string) !! "a" = Some v
       ∧ canonical v
       ∧ cout (mkStreams [] ["42"] []) = cout (mkStreams ["+42"] [] []) ++ [v]
       ∧ ∀ key, key ≠ "a" →
                <["a" := "42"]> (∅ : gmap string string) !! key
                = (∅ : gmap string string) !! key.
Proof.
  apply (X17_in_then_out "a" ∅ (mkStreams ["+42"] [] [])). reflexivity.
Defined.

(** X18.  Running one statement sequence after another is running their
    concatenation: the second starts from the map and the streams the
    first leaves, and is not run at all when the first throws. *)
Theorem X18_execute_all_app statements1 statements2 variables io :
  execute_all (statements1 ++ statements2) variables io
  = match execute_all statements1 variables io with
    | inl e => inl e
    | inr (variables', io') => execute_all statements2 variables' io'
    end.
Proof.
  revert variables io.
  induction statements1 as [|stmt statements1 IH]; intros variables io;
    simpl; [done|].
  destruct (execute stmt variables io) as [e|[variables' io']]; [done|].
  apply IH.
Qed.

(** * The driver *)



(** A run that completes leaves the streams [execute_all] returns. *)
Lemma streams_at_exit_completes statements variables io variables' io' :
  execute_all statements variables io = inr (variables', io') →
  streams_at_exit statements variables io = io'.
Proof.
  revert variables io.
  induction statements as [|stmt statements IH]; intros variables io; simpl.
  - by intros [= _ <-].
  - destruct (execute stmt variables io) as [e|[variables1 io1]]; [done|].
    apply IH.
Qed.


(** * Numbers read and written *)

Lemma read_digits_stop tail acc :
  stops isdigit tail = true → read_digits tail acc = acc.
Proof.
  destruct tail as [|c tail]; [done|]. simpl.
  by intros ->%negb_true_iff.
Qed.

Lemma read_digits_acc d tail acc p :
  stops isdigit tail = true → acc = Zpos p →
  read_digits (NilEmpty.string_of_uint d +:+ tail) acc
  = Zpos (Pos.of_uint_acc d p).
Proof.
  intros Htail. revert acc p.
  induction d as [|d IH|d IH|d IH|d IH|d IH|d IH|d IH|d IH|d IH|d IH];
    intros acc p ->;
    [by apply read_digits_stop|..];
    simpl NilEmpty.string_of_uint; rewrite append_cons;
    simpl; apply IH;
    match goal with
    | |- context [Z.of_nat (nat_of_ascii ?c)] =>
        let v := eval vm_compute in (Z.of_nat (nat_of_ascii c)) in
        change (Z.of_nat (nat_of_ascii c)) with v
    end; lia.
Qed.

Lemma read_digits_uint d tail :
  stops isdigit tail = true →
  read_digits (NilEmpty.string_of_uint d +:+ tail) 0 = Z.of_N (Pos.of_uint d).
Proof.
  intros Htail.
  induction d as [|d IH|d IH|d IH|d IH|d IH|d IH|d IH|d IH|d IH|d IH];
    [by apply read_digits_stop|..];
    simpl NilEmpty.string_of_uint; rewrite append_cons; simpl;
    [apply IH|..]; by apply read_digits_acc.
Qed.

Lemma digits_head d tail :
  d ≠ Decimal.Nil →
  ∃ c s, NilEmpty.string_of_uint d +:+ tail = String c s ∧ isdigit c = true.
Proof.
  destruct d; [done|..]; intros _;
    simpl NilEmpty.string_of_uint; rewrite append_cons; by eexists _, _.
Qed.

Lemma isdigit_plain c s :
  isdigit c = true →
  isspace c = false ∧ strip_sign (String c s) = (false, String c s).
Proof. destruct c as [[] [] [] [] [] [] [] []]; vm_compute; by split. Qed.

Lemma skip_spaces_run ws s :
  string_forall isspace ws = true → stops isspace s = true →
  skip_spaces (ws +:+ s) = s.
Proof.
  intros Hws Hs. induction ws as [|c ws IH].
  - destruct s as [|c s]; [done|]. simpl in *.
    by apply negb_true_iff in Hs as ->.
  - simpl in Hws. apply andb_true_iff in Hws as [Hc Hws].
    rewrite append_cons. simpl. rewrite Hc. by apply IH.
Qed.

Lemma to_string_pos p :
  to_string (Zpos p) = NilEmpty.string_of_uint (Pos.to_uint p).
Proof.
  unfold to_string. simpl. unfold NilZero.string_of_uint.
  pose proof (DecimalPos.Unsigned.to_uint_nonnil p).
  by destruct (Pos.to_uint p).
Qed.

Lemma to_string_neg p :
  to_string (Zneg p) = String "-" (NilEmpty.string_of_uint (Pos.to_uint p)).
Proof.
  unfold to_string. simpl. unfold NilZero.string_of_uint.
  pose proof (DecimalPos.Unsigned.to_uint_nonnil p).
  by destruct (Pos.to_uint p).
Qed.

(** [std::stoi] reads back what [std::to_string] wrote, also after white
    space and in front of text that does not go on with a digit. *)
Lemma stoi_to_string ws n tail :
  string_forall isspace ws = true → stops isdigit tail = true →
  (INT_MIN ≤ n ≤ INT_MAX)%Z →
  stoi (ws +:+ to_string n +:+ tail) = inr n.
Proof.
  intros Hws Htail Hrange.
  assert (∀ p, ∃ c s,
            NilEmpty.string_of_uint (Pos.to_uint p) +:+ tail = String c s
            ∧ isdigit c = true
            ∧ read_digits (String c s) 0 = Zpos p) as Hdigits.
  { intros p.
    destruct (digits_head (Pos.to_uint p) tail) as (c & s & Heq & Hc);
      [apply DecimalPos.Unsigned.to_uint_nonnil|].
    exists c, s. split; [done|]. split; [done|].
    by rewrite <- Heq, read_digits_uint, DecimalPos.Unsigned.of_to. }
  assert ((INT_MIN <=? n)%Z && (n <=? INT_MAX)%Z = true) as Hrangeb
    by (apply andb_true_iff; split; apply Z.leb_le; lia).
  unfold stoi. destruct n as [|p|p].
  - change (to_string 0) with "0".
    rewrite skip_spaces_run by done.
    rewrite append_cons, append_nil. simpl.
    by rewrite read_digits_stop.
  - rewrite to_string_pos.
    destruct (Hdigits p) as (c & s & -> & Hc & Hread).
    destruct (isdigit_plain c s Hc) as [Hsp Hsign].
    rewrite skip_spaces_run by (simpl; by rewrite ?Hsp).
    rewrite Hsign. unfold char_at. simpl String.get. simpl default.
    by rewrite Hc, Hread, Hrangeb.
  - rewrite to_string_neg, append_cons.
    destruct (Hdigits p) as (c & s & -> & Hc & Hread).
    rewrite skip_spaces_run by done.
    simpl strip_sign. unfold char_at. simpl String.get. simpl default.
    rewrite Hc, Hread.
    change (- Z.pos p)%Z with (Z.neg p). by rewrite Hrangeb.
Qed.

(** X20.  A line that holds the decimal text of an [int], after any white
    space and followed by the end of the line or by text that does not
    start with a digit, is read as that [int]: [InStatement::execute]
    stores the same decimal text, consumes the line and writes no
    diagnostic.  In particular a text that a run has stored is read back
    unchanged. *)
Theorem X20_number_read_back var_name ws n tail rest out err variables :
  string_forall isspace ws = true → stops isdigit tail = true →
  (INT_MIN ≤ n ≤ INT_MAX)%Z →
  InStatement_execute var_name variables
    (mkStreams ((ws +:+ to_string n +:+ tail) :: rest) out err)
  = inr (<[var_name := to_string n]> variables, mkStreams rest out err).
Proof.
  intros Hws Htail Hrange. unfold InStatement_execute, getline. simpl.
  by rewrite stoi_to_string.
Qed.

Lemma X20_number_read_back_witness :
  InStatement_execute "a" ∅
    (mkStreams ((" " +:+ to_string (-15) +:+ " apples") :: []) [] [])
  = inr (<["a" := to_string (-15)]> ∅, mkStreams [] [] []).
Proof.
  apply (X20_number_read_back "a" " " (-15) " apples" [] [] [] ∅);
    [reflexivity | reflexivity |].
  unfold INT_MIN, INT_MAX. lia.
Defined.
